(** * Geospatial converter: projection, cache keys, geocoding pipeline

    A shallow embedding of [main.py], in three layers:

    - the Mercator projection and its inverse over the real numbers
      (Python's [float] arithmetic and the [math] functions are read as exact
      real arithmetic; binary64 rounding error is outside this model);
    - Python's [round(x, 4)], [format(x, '.4f')] and [==] on binary64 values,
      over [spec_float] with exact integer arithmetic: these decide which
      cache key a coordinate gets;
    - the geocoding pipeline and the orchestrator [main], as programs in a
      state-and-exception monad over the process-wide cache, the cache file
      and a trace of observable events.

    The interactive entry, [input_coordinates_interactively], is a function
    on the lines of the terminal. *)

From Stdlib Require Import ZArith Reals Lra Lia Bool List.
From Stdlib Require Import Floats.SpecFloat Ascii String.
From stdpp Require Import base option list strings gmap pretty.

(** ** Projection engine *)

Section Mercator.
Local Open Scope R_scope.

(** [math.radians] and [math.degrees]. *)
Definition radians (x : R) : R := x * (PI / 180).
Definition degrees (x : R) : R := x * (180 / PI).

(** The constant [R = 6371000/637.1] of both functions. *)
Definition R_sphere : R := 6371000 / 637.1.

Definition mercator_projection (lat lon : R) : R * R :=
  let lat := Rmax (Rmin lat 89.9) (-89.9) in
  let R := R_sphere in
  (R * radians lon,
   R * ln (tan (PI / 4 + radians lat / 2))).

Definition inverse_mercator (x y : R) : R * R :=
  let R := R_sphere in
  (degrees (2 * atan (exp (y / R)) - PI / 2),
   degrees (x / R)).

(** The clamp in the words of the specification, to compare with the
    [max(min(lat, 89.9), -89.9)] of the code. *)
Definition clamp_latitude (lat : R) : R :=
  if Rlt_dec lat (-89.9) then -89.9
  else if Rlt_dec 89.9 lat then 89.9 else lat.

(** The argument of [tan] for a latitude in degrees. *)
Definition half_angle (lat : R) : R := PI / 4 + radians lat / 2.

(** The ordinate of latitude 89.9, the largest the projection returns. *)
Definition y_max : R := R_sphere * ln (tan (half_angle 89.9)).

End Mercator.

(** ** Python floats: rounding, formatting, equality *)

Section PyFloat.
Local Open Scope Z_scope.

(** A Python [float] is a binary64 value. *)
Definition float : Type := spec_float.

Definition float_valid (x : float) : bool := valid_binary 53 1024 x.

(** [x == y] and [x <= y]. *)
Definition float_eq (x y : float) : bool := SFeqb x y.
Definition float_le (x y : float) : bool := SFleb x y.

(** [a/d] rounded to the nearest integer, ties to even ([0 <= a], [0 < d]). *)
Definition rne_div (a d : Z) : Z :=
  let q := a / d in
  let r := a mod d in
  if 2 * r <? d then q
  else if d <? 2 * r then q + 1
  else if Z.even q then q else q + 1.

(** The exact value [m * 2^e] in units of [1e-4], correctly rounded: the
    digits both [round(x, 4)] and ['.4f'] compute. *)
Definition decimal4 (m : positive) (e : Z) : Z :=
  if 0 <=? e then Z.pos m * 2 ^ e * 10000
  else rne_div (Z.pos m * 10000) (2 ^ (- e)).

(** The binary exponent of [num/den]: the [l] with
    [2^l <= num/den < 2^(l+1)]. *)
Definition floor_log2_ratio (num den : Z) : Z :=
  let l := Z.log2 num - Z.log2 den in
  let below :=
    if 0 <=? l then num <? den * 2 ^ l else num * 2 ^ (- l) <? den in
  if below then l - 1 else l.

(** The binary64 value nearest to [num/den] ([0 <= num], [0 < den]), ties
    to even, with sign [s]: the conversion of a decimal to a float. *)
Definition nearest_float (s : bool) (num den : Z) : float :=
  if num =? 0 then S754_zero s
  else
    let e := Z.max (floor_log2_ratio num den - 52) (-1074) in
    let m :=
      if e <? 0 then rne_div (num * 2 ^ (- e)) den
      else rne_div num (den * 2 ^ e) in
    let '(m, e) := if m =? 2 ^ 53 then (2 ^ 52, e + 1) else (m, e) in
    if m =? 0 then S754_zero s
    else if 971 <? e then S754_infinity s
    else S754_finite s (Z.to_pos m) e.

(** [round(x, 4)]: infinities and NaN round to themselves; a finite value
    is rounded to four decimal places on its exact value and the decimal
    is converted back to the nearest float.  The sign is kept, so a small
    negative value gives [-0.0]. *)
Definition round4 (x : float) : float :=
  match x with
  | S754_finite s m e => nearest_float s (decimal4 m e) 10000
  | _ => x
  end.

Definition sign_prefix (s : bool) : string := if s then "-" else "".

Definition digit (d : Z) : ascii := pretty_N_char (Z.to_N d).

Definition frac4 (f : Z) : string :=
  String (digit (f / 1000))
    (String (digit (f / 100 mod 10))
      (String (digit (f / 10 mod 10))
        (String (digit (f mod 10)) ""))).

(** The digits of [k] units of [1e-4], without sign. *)
Definition unsigned4 (k : Z) : string :=
  pretty (k / 10000) +:+ "." +:+ frac4 (k mod 10000).

Definition fixed4 (s : bool) (k : Z) : string :=
  sign_prefix s +:+ unsigned4 k.

(** [f"{x:.4f}"]. *)
Definition format4 (x : float) : string :=
  match x with
  | S754_nan => "nan"
  | S754_infinity s => sign_prefix s +:+ "inf"
  | S754_zero s => fixed4 s 0
  | S754_finite s m e => fixed4 s (decimal4 m e)
  end.

(** The float of an integer, and the float written as a decimal literal
    with [digits / 10^places]. *)
Definition float_of_Z (z : Z) : float := nearest_float (z <? 0) (Z.abs z) 1.

Definition float_literal (s : bool) (digits places : Z) : float :=
  nearest_float s digits (10 ^ places).

Definition float_sign (x : float) : bool :=
  match x with
  | S754_zero s | S754_infinity s | S754_finite s _ _ => s
  | S754_nan => false
  end.

Definition float_decimal4 (x : float) : Z :=
  match x with
  | S754_finite _ m e => decimal4 m e
  | _ => 0
  end.

Definition float_is_number (x : float) : bool :=
  match x with
  | S754_zero _ | S754_finite _ _ _ => true
  | _ => false
  end.

(** The exact value of a float, for the projection (finite values only
    reach it: the orchestrator validates the range first). *)
Definition float_to_R (x : float) : R :=
  match x with
  | S754_finite s m e =>
      ((if s then -1 else 1) * IZR (Z.pos m) * powerRZ 2 e)%R
  | _ => 0%R
  end.

End PyFloat.

(** Character classes of the formatted strings. *)

Section Characters.

Fixpoint all_chars (P : ascii → bool) (s : string) : bool :=
  match s with
  | EmptyString => true
  | String c s' => P c && all_chars P s'
  end.

Definition is_digit (c : ascii) : bool :=
  match c with
  | "0" | "1" | "2" | "3" | "4" | "5" | "6" | "7" | "8" | "9" => true
  | _ => false
  end%char.

Definition is_numeric (c : ascii) : bool :=
  is_digit c || bool_decide (c = "."%char).

Definition key_char (c : ascii) : bool := negb (bool_decide (c = ","%char)).

End Characters.

(** ** Data of the pipeline *)

Section Data.

Definition coord : Type := float * float.

(** Equality of tuples of floats, as [set] and [dict] use it on freshly
    built keys: componentwise [==], so [-0.0] equals [0.0] and NaN equals
    nothing. *)
Definition coord_eq (a b : coord) : bool :=
  float_eq a.1 b.1 && float_eq a.2 b.2.

(** [(round(lat, 4), round(lon, 4))]. *)
Definition round_coord (c : coord) : coord := (round4 c.1, round4 c.2).

(** [f"{round(lat, 4):.4f},{round(lon, 4):.4f}"]. *)
Definition cache_key (lat lon : float) : string :=
  format4 (round4 lat) +:+ "," +:+ format4 (round4 lon).

(** A Python exception: its class and [str(e)]. *)
Record exn := Exn { exn_class : string; exn_message : string }.

(** What the rate-limited [reverse] callable does on one call: a location
    with an address, [None], or an exception. *)
Inductive reverse_outcome :=
  | Located (address : string)
  | NoLocation
  | Failure (e : exn).

(** The external service: its answer may depend on the calls made before. *)
Definition service : Type := list coord → coord → reverse_outcome.

(** The string [process_coord] stores for an outcome. *)
Definition outcome_text (o : reverse_outcome) : string :=
  match o with
  | Located address => address
  | NoLocation => "Not found"
  | Failure e => "Error: " +:+ exn_message e
  end.

Record enriched_record := EnrichedRecord {
  rec_lat : float; rec_lon : float;
  rec_x : R; rec_y : R;
  rec_rev_lat : R; rec_rev_lon : R;
  rec_address : string }.

(** The lines the program prints, by kind. *)
Inductive message :=
  | MsgCacheLoadFailed
  | MsgCacheSaveFailed
  | MsgGeocoding (n : nat)
  | MsgGeocodingCompleted
  | MsgPreserved
  | MsgNoNewCoordinates
  | MsgSkippingInvalid (lat lon : float)
  | MsgCreatingMap
  | MsgOutputFiles
  | MsgError (text : string)
  | MsgProcessCompleted.

Inductive event :=
  | EvPrint (m : message)
  | EvReverse (c : coord)
  | EvDumpCache (snapshot : gmap string string)
  | EvWriteCsv (rows : list enriched_record)
  | EvSaveMap (centre : R * R) (rows : list enriched_record)
  | EvOpenBrowser.

(** [geo_cache.json]: missing, unreadable, or a mapping. *)
Inductive file_state :=
  | Absent
  | Corrupt
  | Holds (contents : gmap string string).

Record world := World {
  cache : gmap string string;
  cache_file : file_state;
  trace : list event }.

(** What [pd.read_csv] and the column search give. *)
Inductive csv_contents :=
  | CsvMissing
  | CsvUnreadable (e : exn)
  | CsvNoLatLon
  | CsvRows (rows : list coord).

(** The environment of one run: the answers typed, the collaborators'
    results, the service, and whether the cache file can be written. *)
Record environment := Environment {
  wants_new_coordinates : bool;
  entered_coordinates : option (list coord);
  save_to_csv_ok : bool;
  csv_read : csv_contents;
  wants_lookup : bool;
  reverse : service;
  cache_writable : bool }.

Definition service_calls (t : list event) : list coord :=
  omap (λ e, match e with EvReverse c => Some c | _ => None end) t.

Definition written_rows (t : list event) : list (list enriched_record) :=
  omap (λ e, match e with EvWriteCsv rows => Some rows | _ => None end) t.

Definition error_messages (t : list event) : list string :=
  omap (λ e, match e with EvPrint (MsgError text) => Some text | _ => None end) t.


(** The dictionary returned by [batch_geocode], in insertion order. *)
Definition address_map : Type := list (coord * string).

Fixpoint dict_set (k : coord) (v : string) (d : address_map) : address_map :=
  match d with
  | [] => [(k, v)]
  | (k', v') :: d' =>
      if coord_eq k' k then (k', v) :: d' else (k', v') :: dict_set k v d'
  end.

Fixpoint dict_get (k : coord) (d : address_map) : option string :=
  match d with
  | [] => None
  | (k', v') :: d' => if coord_eq k' k then Some v' else dict_get k d'
  end.

Definition dict_of_items (items : list (coord * string)) : address_map :=
  fold_left (λ d kv, dict_set kv.1 kv.2 d) items [].

(** [list({...})]: one representative, the first, of each class of equal
    tuples.  The order in which Python iterates a set is unspecified; here
    it is the order of first occurrence. *)
Fixpoint set_of_list (l : list coord) (acc : list coord) : list coord :=
  match l with
  | [] => acc
  | x :: l' =>
      set_of_list l'
        (if existsb (λ y, coord_eq y x) acc then acc else acc ++ [x])
  end.

Definition unique_coords (coords : list coord) : list coord :=
  set_of_list (round_coord <$> coords) [].

Definition in_range (lat lon : float) : bool :=
  (float_le (float_of_Z (-90)) lat && float_le lat (float_of_Z 90))
  && (float_le (float_of_Z (-180)) lon && float_le lon (float_of_Z 180)).

Definition Rsum (l : list R) : R := fold_right Rplus 0%R l.

End Data.

(** ** Programs: state, trace and exceptions *)

Inductive result (A : Type) :=
  | Returned (a : A)
  | Raised (e : exn).
Global Arguments Returned {A} a.
Global Arguments Raised {A} e.

Definition M (A : Type) : Type := world → result A * world.

Global Instance M_ret : MRet M := λ A a w, (Returned a, w).
Global Instance M_bind : MBind M := λ A B k m w,
  match m w with
  | (Returned a, w') => k a w'
  | (Raised e, w') => (Raised e, w')
  end.

Section Control.
Context {A : Type}.

Definition raise (e : exn) : M A := λ w, (Raised e, w).

(** [try: m  except Exception as e: handler e]. *)
Definition try_except (m : M A) (handler : exn → M A) : M A :=
  λ w, match m w with
       | (Returned a, w') => (Returned a, w')
       | (Raised e, w') => handler e w'
       end.

(** [try: m  finally: final]. *)
Definition try_finally (m : M A) (final : M unit) : M A :=
  λ w, match m w with
       | (r, w') =>
           match final w' with
           | (Returned _, w'') => (r, w'')
           | (Raised e, w'') => (Raised e, w'')
           end
       end.

End Control.

Section Primitives.

Definition emit (e : event) : M unit :=
  λ w, (Returned (), World (cache w) (cache_file w) (trace w ++ [e])).
Definition print (m : message) : M unit := emit (EvPrint m).
Definition get_cache : M (gmap string string) := λ w, (Returned (cache w), w).
Definition put_cache (c : gmap string string) : M unit :=
  λ w, (Returned (), World c (cache_file w) (trace w)).
Definition get_cache_file : M file_state := λ w, (Returned (cache_file w), w).
Definition put_cache_file (f : file_state) : M unit :=
  λ w, (Returned (), World (cache w) f (trace w)).
Definition get_trace : M (list event) := λ w, (Returned (trace w), w).

End Primitives.

Section Programs.
Variable env : environment.

Definition load_cache : M unit :=
  f ← get_cache_file;
  match f with
  | Holds contents => put_cache contents
  | Corrupt => print MsgCacheLoadFailed
  | Absent => mret ()
  end.

(** A failed write is caught and reported; the file is taken to stay as
    it was. *)
Definition save_cache : M unit :=
  if cache_writable env then
    c ← get_cache;
    emit (EvDumpCache c);;
    put_cache_file (Holds c)
  else print MsgCacheSaveFailed.

(** One call of [reverse((lat, lon))]. *)
Definition call_reverse (c : coord) : M (option string) :=
  t ← get_trace;
  emit (EvReverse c);;
  match reverse env (service_calls t) c with
  | Located address => mret (Some address)
  | NoLocation => mret None
  | Failure e => raise e
  end.

Definition process_coord (lat lon : float) (key : string)
  : M (string * string) :=
  try_except
    (location ← call_reverse (lat, lon);
     mret (key, match location with
                | Some address => address
                | None => "Not found"
                end))
    (λ e, mret (key, "Error: " +:+ exn_message e)).

(** [new_coords]: the coordinates whose key is not in the cache. *)
Definition uncached (c : gmap string string) (coordinates : list coord)
  : list (float * float * string) :=
  filter (λ n, c !! n.2 = None)
    ((λ p : coord, (p.1, p.2, cache_key p.1 p.2)) <$> coordinates).

(** The executor has one worker: the tasks run in the order submitted,
    and each result is stored by [cache[key] = result].  The progress line,
    printed at most every five seconds of wall time, is left out. *)
Fixpoint resolve (new_coords : list (float * float * string)) : M unit :=
  match new_coords with
  | [] => mret ()
  | (lat, lon, key) :: rest =>
      '(key, result) ← process_coord lat lon key;
      c ← get_cache;
      put_cache (<[key := result]> c);;
      resolve rest
  end.

Definition batch_geocode (coordinates : list coord) : M address_map :=
  c ← get_cache;
  let new_coords := uncached c coordinates in
  match new_coords with
  | [] => mret []
  | _ :: _ =>
      print (MsgGeocoding (length new_coords));;
      resolve new_coords;;
      save_cache;;
      print MsgGeocodingCompleted;;
      c ← get_cache;
      mret (dict_of_items
              ((λ p : coord,
                  (round_coord p, default "Error" (c !! cache_key p.1 p.2)))
                 <$> coordinates))
  end.

(** One row of the loop of [main].  The rows are numeric, so [float(lat)]
    is the identity and nothing in the body raises: the projection is
    applied to a latitude in range. *)
Definition convert_row (p : coord) : M (option enriched_record) :=
  let lat := p.1 in
  let lon := p.2 in
  if negb (float_le (float_of_Z (-90)) lat && float_le lat (float_of_Z 90))
     || negb (float_le (float_of_Z (-180)) lon
              && float_le lon (float_of_Z 180))
  then
    print (MsgSkippingInvalid lat lon);; mret None
  else
    let '(x, y) := mercator_projection (float_to_R lat) (float_to_R lon) in
    let '(rev_lat, rev_lon) := inverse_mercator x y in
    c ← get_cache;
    let address := default "Address lookup disabled" (c !! cache_key lat lon) in
    mret (Some (EnrichedRecord lat lon x y rev_lat rev_lon address)).

Fixpoint convert_rows (coords : list coord) : M (list enriched_record) :=
  match coords with
  | [] => mret []
  | p :: rest =>
      r ← convert_row p;
      output_data ← convert_rows rest;
      mret (match r with
            | Some rec => rec :: output_data
            | None => output_data
            end)
  end.

(** The centre of the map: the means, a division by [len(data)]. *)
Definition create_optimized_map (data : list enriched_record) : M (R * R) :=
  match data with
  | [] => raise (Exn "ZeroDivisionError" "division by zero")
  | _ :: _ =>
      let n := INR (length data) in
      mret ((Rsum ((λ r, float_to_R (rec_lat r)) <$> data) / n)%R,
            (Rsum ((λ r, float_to_R (rec_lon r)) <$> data) / n)%R)
  end.

Definition main_body : M unit :=
  (if wants_new_coordinates env then
     match entered_coordinates env with
     | Some (_ :: _) =>
         if save_to_csv_ok env then print MsgPreserved
         else raise (Exn "ValueError" "Failed to save coordinates")
     | _ => print MsgNoNewCoordinates
     end
   else mret ());;
  load_cache;;
  coords ←
    match csv_read env with
    | CsvMissing =>
        raise (Exn "ValueError"
                 "Coordinates file not found. Please create 'coordinates.csv' or use interactive input")
    | CsvUnreadable e => raise e
    | CsvNoLatLon =>
        raise (Exn "ValueError" "Latitude/Longitude columns not found")
    | CsvRows rows => mret rows
    end;
  address_map ←
    (if wants_lookup env then batch_geocode (unique_coords coords)
     else mret []);
  output_data ← convert_rows coords;
  emit (EvWriteCsv output_data);;
  print MsgCreatingMap;;
  centre ← create_optimized_map output_data;
  emit (EvSaveMap centre output_data);;
  print MsgOutputFiles;;
  emit EvOpenBrowser.

Definition main : M unit :=
  try_finally
    (try_except main_body (λ e, print (MsgError (exn_message e))))
    (save_cache;; print MsgProcessCompleted).

End Programs.

(** The process starts with an empty cache dictionary. *)
Definition initial_world (f : file_state) : world := World ∅ f [].

(** The cache [load_cache] leaves in memory. *)
Definition loaded_cache (f : file_state) : gmap string string :=
  match f with
  | Holds contents => contents
  | _ => ∅
  end.

(** ** The effect of each program, stated directly

    The worlds the programs leave, as plain functions; the run lemmas
    below show that the programs compute them. *)

Section Effects.
Variable env : environment.

Definition log (es : list event) (w : world) : world :=
  World (cache w) (cache_file w) (trace w ++ es).

Definition call_of (n : float * float * string) : coord := (n.1.1, n.1.2).

Definition resolve_step (w : world) (n : float * float * string) : world :=
  World
    (<[n.2 := outcome_text (reverse env (service_calls (trace w)) (call_of n))]>
       (cache w))
    (cache_file w)
    (trace w ++ [EvReverse (call_of n)]).

Definition save_world (w : world) : world :=
  if cache_writable env then
    World (cache w) (Holds (cache w)) (trace w ++ [EvDumpCache (cache w)])
  else log [EvPrint MsgCacheSaveFailed] w.

Definition geocoded_world (new_coords : list (float * float * string))
    (w : world) : world :=
  log [EvPrint MsgGeocodingCompleted]
    (save_world
       (fold_left resolve_step new_coords
          (log [EvPrint (MsgGeocoding (length new_coords))] w))).

Definition row_of (c : gmap string string) (p : coord)
  : option enriched_record :=
  if in_range p.1 p.2 then
    let xy := mercator_projection (float_to_R p.1) (float_to_R p.2) in
    let rev := inverse_mercator xy.1 xy.2 in
    Some (EnrichedRecord p.1 p.2 xy.1 xy.2 rev.1 rev.2
            (default "Address lookup disabled" (c !! cache_key p.1 p.2)))
  else None.

Definition skip_message (p : coord) : option event :=
  if in_range p.1 p.2 then None
  else Some (EvPrint (MsgSkippingInvalid p.1 p.2)).

(** The interactive phase fails when coordinates were entered and
    [save_to_csv] reports failure. *)
Definition input_phase_fails : bool :=
  wants_new_coordinates env
  && match entered_coordinates env with Some (_ :: _) => true | _ => false end
  && negb (save_to_csv_ok env).

Definition input_events : list event :=
  if wants_new_coordinates env then
    match entered_coordinates env with
    | Some (_ :: _) => [EvPrint MsgPreserved]
    | _ => [EvPrint MsgNoNewCoordinates]
    end
  else [].

Definition load_events (f : file_state) : list event :=
  match f with Corrupt => [EvPrint MsgCacheLoadFailed] | _ => [] end.

(** The world when the coordinates have been read. *)
Definition loaded_world (f : file_state) : world :=
  World (loaded_cache f) f (input_events ++ load_events f).

(** The last two steps of every run. *)
Definition finished (w : world) : world :=
  log [EvPrint MsgProcessCompleted] (save_world w).

Definition map_centre (data : list enriched_record) : R * R :=
  let n := INR (length data) in
  ((Rsum ((λ r, float_to_R (rec_lat r)) <$> data) / n)%R,
   (Rsum ((λ r, float_to_R (rec_lon r)) <$> data) / n)%R).

(** The world after the rows have been converted and exported. *)
Definition exported (rows : list coord) (w : world) : world :=
  let out := omap (row_of (cache w)) rows in
  let w' :=
    log (omap skip_message rows ++ [EvWriteCsv out; EvPrint MsgCreatingMap]) w in
  match out with
  | [] => log [EvPrint (MsgError "division by zero")] w'
  | _ :: _ =>
      log [EvSaveMap (map_centre out) out; EvPrint MsgOutputFiles; EvOpenBrowser]
        w'
  end.

(** The world when the body of [main] and its handler are done. *)
Definition settled (f : file_state) : world :=
  if input_phase_fails then
    log [EvPrint (MsgError "Failed to save coordinates")] (initial_world f)
  else
    match csv_read env with
    | CsvMissing =>
        log [EvPrint (MsgError
               "Coordinates file not found. Please create 'coordinates.csv' or use interactive input")]
          (loaded_world f)
    | CsvUnreadable e => log [EvPrint (MsgError (exn_message e))] (loaded_world f)
    | CsvNoLatLon =>
        log [EvPrint (MsgError "Latitude/Longitude columns not found")]
          (loaded_world f)
    | CsvRows rows =>
        exported rows
          (if wants_lookup env
           then (batch_geocode env (unique_coords rows) (loaded_world f)).2
           else loaded_world f)
    end.

Definition matching (x : coord) (l : list coord) : list coord :=
  filter (λ u, coord_eq u x = true) l.

Definition is_zero (x : float) : bool :=
  match x with S754_zero _ => true | _ => false end.

Definition valid_coord (p : coord) : Prop :=
  float_valid p.1 = true ∧ float_valid p.2 = true.

(** The value given last to a key equal to [k] in a sequence of dictionary
    assignments. *)
Fixpoint last_value (k : coord) (items : list (coord * string))
    (acc : option string) : option string :=
  match items with
  | [] => acc
  | kv :: rest => last_value k rest (if coord_eq kv.1 k then Some kv.2 else acc)
  end.

End Effects.

(** ** Sample data for the closed examples *)

Section Samples.

(** A service that times out on latitude 2, finds nothing on latitude 3
    and answers elsewhere. *)
Definition sample_service : service := λ _ c,
  if float_eq c.1 (float_of_Z 2) then
    Failure (Exn "GeocoderTimedOut" "Service timed out")
  else if float_eq c.1 (float_of_Z 3) then NoLocation
  else Located ("Street " +:+ cache_key c.1 c.2).

Definition sample_env (lookup : bool) (rows : list coord) : environment :=
  Environment false None true (CsvRows rows) lookup sample_service true.

Definition point (lat lon : Z) : coord := (float_of_Z lat, float_of_Z lon).

(** A service that answers its first call and times out afterwards. *)
Definition flaky_service : service := λ hist _,
  match hist with
  | [] => Located "Main St"
  | _ :: _ => Failure (Exn "GeocoderTimedOut" "Service timed out")
  end.

Definition flaky_env : environment :=
  Environment false None true (CsvRows []) true flaky_service true.

End Samples.

(** ** Phases of a run *)

Section Phases.
Variable env : environment.

(** An event of the loading or geocoding phase: no export, no error. *)
Definition quiet (e : event) : Prop :=
  match e with
  | EvWriteCsv _ | EvSaveMap _ _ | EvOpenBrowser | EvPrint (MsgError _) => False
  | _ => True
  end.

(** The world in which the rows are converted. *)
Definition conversion_world (f : file_state) (rows : list coord) : world :=
  if wants_lookup env
  then (batch_geocode env (unique_coords rows) (loaded_world env f)).2
  else loaded_world env f.


(** A run in which the coordinates entered cannot be saved. *)
Definition unsaved_env : environment :=
  Environment true (Some [point 1 1]) false CsvMissing false sample_service true.

End Phases.

(** ** Values of floats, keys of coordinates *)

Section FloatValue.
Local Open Scope Z_scope.

(** The exact value of a float in units of [2^-1074], the least positive
    binary64 value: an integer for every valid float. *)
Definition float_scaled (x : float) : Z :=
  match x with
  | S754_finite s m e => (if s then -1 else 1) * (Z.pos m * 2 ^ (e + 1074))
  | _ => 0
  end.

End FloatValue.

Section Observations.

(** The cache key of a coordinate pair. *)
Definition key_of (c : coord) : string := cache_key c.1 c.2.

End Observations.

(** ** Interactive entry *)

(** The string methods and the conversion [input_coordinates_interactively]
    leaves to Python: [str.strip], [str.lower] and [float], which gives no
    value when it raises. *)
Record builtins := Builtins {
  str_strip : string → string;
  str_lower : string → string;
  str_float : string → option float }.

(** The lines printed during the entry, by kind; the text of the exception
    in the invalid-input line is left out. *)
Inductive prompt_message :=
  | MsgEnterCoordinates
  | MsgTypeDone
  | MsgPrompt
  | MsgCanceling
  | MsgLatitudeRange
  | MsgLongitudeRange
  | MsgAdded (lat lon : string)
  | MsgInvalidInput
  | MsgCorrectFormat.

(** The terminal: the lines still to be read and the lines printed. *)
Record console := Console {
  stdin : list string;
  stdout : list prompt_message }.

Section Entry.
Variable py : builtins.

(** [s.split(sep)] for a separator of one character. *)
Fixpoint split_on (sep : ascii) (s : string) : list string :=
  match s with
  | EmptyString => [EmptyString]
  | String c s' =>
      if Ascii.eqb c sep then EmptyString :: split_on sep s'
      else match split_on sep s' with
           | piece :: pieces => String c piece :: pieces
           | [] => [String c EmptyString]
           end
  end.

(** The loop of [input_coordinates_interactively]: [input] takes the next
    line and raises [EOFError] when there is none; the unpacking of
    [map(float, entry.split(','))] succeeds when there are two pieces and
    [float] accepts both. *)
Fixpoint read_entries (lines : list string) (coordinates : list coord)
    (out : list prompt_message) : result (option (list coord)) * console :=
  match lines with
  | [] =>
      (Raised (Exn "EOFError" "EOF when reading a line"),
       Console [] (out ++ [MsgPrompt]))
  | line :: rest =>
      let entry := str_strip py line in
      let out := out ++ [MsgPrompt] in
      if String.eqb (str_lower py entry) "done" then
        (Returned (Some coordinates), Console rest out)
      else if String.eqb (str_lower py entry) "exit" then
        (Returned None, Console rest (out ++ [MsgCanceling]))
      else
        match str_float py <$> split_on "," entry with
        | [Some lat; Some lon] =>
            if negb (float_le (float_of_Z (-90)) lat
                     && float_le lat (float_of_Z 90)) then
              read_entries rest coordinates (out ++ [MsgLatitudeRange])
            else if negb (float_le (float_of_Z (-180)) lon
                          && float_le lon (float_of_Z 180)) then
              read_entries rest coordinates (out ++ [MsgLongitudeRange])
            else
              read_entries rest (coordinates ++ [(lat, lon)])
                (out ++ [MsgAdded (format4 lat) (format4 lon)])
        | _ =>
            read_entries rest coordinates
              (out ++ [MsgInvalidInput; MsgCorrectFormat])
        end
  end.

Definition input_coordinates_interactively (lines : list string)
  : result (option (list coord)) * console :=
  read_entries lines [] [MsgEnterCoordinates; MsgTypeDone].

(** What a line is taken for: the command it spells, the pair it adds. *)
Definition entry_command (line : string) : string :=
  str_lower py (str_strip py line).

Definition terminator (line : string) : bool :=
  String.eqb (entry_command line) "done"
  || String.eqb (entry_command line) "exit".

Definition parse_entry (line : string) : option coord :=
  match str_float py <$> split_on "," (str_strip py line) with
  | [Some lat; Some lon] => if in_range lat lon then Some (lat, lon) else None
  | _ => None
  end.

End Entry.

Section EntrySamples.

(** Sample builtins for plain ASCII input: blanks are spaces, capitals are
    [A-Z], and [float] reads [-ddd.ddd]. *)
Fixpoint drop_spaces (s : string) : string :=
  match s with
  | String " " s' => drop_spaces s'
  | _ => s
  end.

Definition ascii_strip (s : string) : string :=
  String.rev (drop_spaces (String.rev (drop_spaces s))).

Definition ascii_lower_char (c : ascii) : ascii :=
  let n := N_of_ascii c in
  if (65 <=? n)%N && (n <=? 90)%N then ascii_of_N (n + 32) else c.

Fixpoint ascii_lower (s : string) : string :=
  match s with
  | EmptyString => EmptyString
  | String c s' => String (ascii_lower_char c) (ascii_lower s')
  end.

Fixpoint read_digits (s : string) (acc : Z) : option Z :=
  match s with
  | EmptyString => Some acc
  | String c s' =>
      if is_digit c
      then read_digits s' (10 * acc + (Z.of_N (N_of_ascii c) - 48))%Z
      else None
  end.

Definition decimal_float (s : string) : option float :=
  let '(negative, body) :=
    match s with
    | String "-" s' => (true, s')
    | _ => (false, s)
    end in
  match split_on "." body with
  | [whole] =>
      if String.eqb whole "" then None
      else digits ← read_digits whole 0; Some (nearest_float negative digits 1)
  | [whole; fraction] =>
      if String.eqb (whole +:+ fraction) "" then None
      else
        digits ← read_digits (whole +:+ fraction) 0;
        Some (nearest_float negative digits
                (10 ^ Z.of_nat (String.length fraction)))
  | _ => None
  end.

Definition sample_builtins : builtins :=
  Builtins ascii_strip ascii_lower decimal_float.

End EntrySamples.

(** * Properties *)

(** ** The projection clamps the latitude and stays bounded *)

Section MercatorFacts.
Local Open Scope R_scope.

Lemma R_sphere_pos : 0 < R_sphere.
Proof. unfold R_sphere. lra. Qed.

Lemma code_clamp_spec lat : Rmax (Rmin lat 89.9) (-89.9) = clamp_latitude lat.
Proof.
  unfold clamp_latitude, Rmax, Rmin.
  repeat destruct Rle_dec; repeat destruct Rlt_dec; lra.
Qed.

Lemma clamp_latitude_range lat : -89.9 <= clamp_latitude lat <= 89.9.
Proof. unfold clamp_latitude. repeat destruct Rlt_dec; lra. Qed.

Lemma clamp_latitude_id lat : -89.9 <= lat <= 89.9 → clamp_latitude lat = lat.
Proof. unfold clamp_latitude. repeat destruct Rlt_dec; lra. Qed.

Lemma half_angle_range lat :
  -89.9 <= lat <= 89.9 → 0 < half_angle lat < PI / 2.
Proof.
  intros H. unfold half_angle, radians. pose proof PI_RGT_0. split; nra.
Qed.

Lemma tan_half_angle_pos lat :
  -89.9 <= lat <= 89.9 → 0 < tan (half_angle lat).
Proof. intros H. apply tan_gt_0; apply half_angle_range; exact H. Qed.

Lemma half_angle_opp lat : half_angle (- lat) = PI / 2 - half_angle lat.
Proof. unfold half_angle, radians. lra. Qed.

Lemma tan_complement x : 0 < x < PI / 2 → tan (PI / 2 - x) = / tan x.
Proof.
  intros H. unfold tan. rewrite sin_shift, cos_shift.
  assert (0 < sin x) by (apply sin_gt_0; pose proof PI_RGT_0; lra).
  assert (0 < cos x) by (apply cos_gt_0; lra).
  field. split; lra.
Qed.

Lemma ln_tan_half_angle_opp lat :
  -89.9 <= lat <= 89.9 →
  ln (tan (half_angle (- lat))) = - ln (tan (half_angle lat)).
Proof.
  intros H.
  rewrite half_angle_opp, tan_complement by (apply half_angle_range; exact H).
  apply ln_Rinv, tan_half_angle_pos, H.
Qed.

Lemma ln_tan_half_angle_mono a b :
  -89.9 <= a → a <= b → b <= 89.9 →
  ln (tan (half_angle a)) <= ln (tan (half_angle b)).
Proof.
  intros Ha Hab Hb. destruct (Req_dec a b) as [->|Hne]; [lra|].
  left. apply ln_increasing; [apply tan_half_angle_pos; lra|].
  pose proof (half_angle_range a ltac:(lra)).
  pose proof (half_angle_range b ltac:(lra)).
  apply tan_increasing; try lra.
  unfold half_angle, radians in *. pose proof PI_RGT_0. nra.
Qed.

Lemma mercator_projection_unfold lat lon :
  mercator_projection lat lon
  = (R_sphere * radians lon,
     R_sphere * ln (tan (half_angle (clamp_latitude lat)))).
Proof. unfold mercator_projection. rewrite code_clamp_spec. reflexivity. Qed.

(** C2. For every latitude and longitude, [mercator_projection] returns
    [(R * radians lon, R * ln (tan (pi/4 + radians lat' / 2)))] where [lat']
    is the latitude clamped to [-89.9, 89.9] and [R = 6371000/637.1]; the
    ordinate is the one of the clamped latitude, the argument of the
    logarithm is positive, and the ordinate lies between [- y_max] and
    [y_max], the ordinates of the two clamp bounds. *)
Theorem mercator_projection_clamped lat lon :
  mercator_projection lat lon
  = (6371000 / 637.1 * radians lon,
     6371000 / 637.1 * ln (tan (PI / 4 + radians (clamp_latitude lat) / 2)))
  ∧ -89.9 <= clamp_latitude lat <= 89.9
  ∧ (lat < -89.9 → clamp_latitude lat = -89.9)
  ∧ (89.9 < lat → clamp_latitude lat = 89.9)
  ∧ (mercator_projection lat lon).2
    = (mercator_projection (clamp_latitude lat) lon).2
  ∧ 0 < tan (PI / 4 + radians (clamp_latitude lat) / 2)
  ∧ - y_max <= (mercator_projection lat lon).2 <= y_max.
Proof.
  pose proof (clamp_latitude_range lat) as Hc.
  split_and!.
  - apply mercator_projection_unfold.
  - lra.
  - lra.
  - intros H. unfold clamp_latitude. repeat destruct Rlt_dec; lra.
  - intros H. unfold clamp_latitude. repeat destruct Rlt_dec; lra.
  - rewrite !mercator_projection_unfold. cbn [snd].
    by rewrite (clamp_latitude_id (clamp_latitude lat)).
  - apply (tan_half_angle_pos _ Hc).
  - rewrite mercator_projection_unfold. cbn [snd]. unfold y_max.
    pose proof R_sphere_pos as HR.
    rewrite Ropp_mult_distr_r, <- (ln_tan_half_angle_opp 89.9) by lra.
    apply Rmult_le_compat_l; [lra|].
    replace (- 89.9) with (-89.9) by lra.
    apply ln_tan_half_angle_mono; lra.
  - rewrite mercator_projection_unfold. cbn [snd]. unfold y_max.
    pose proof R_sphere_pos as HR.
    apply Rmult_le_compat_l; [lra|].
    apply ln_tan_half_angle_mono; lra.
Qed.

Lemma mercator_projection_clamped_witness :
  clamp_latitude 95 = 89.9
  ∧ (mercator_projection 95 10).2 = (mercator_projection 89.9 10).2.
Proof.
  destruct (mercator_projection_clamped 95 10) as (_ & _ & _ & Hhi & Hy & _).
  rewrite Hy, Hhi by lra. split; reflexivity.
Defined.

End MercatorFacts.

Section RoundingArithmetic.
Local Open Scope Z_scope.

Lemma rne_div_error a d :
  0 < d → - d ≤ 2 * (rne_div a d * d - a) ≤ d.
Proof.
  intros Hd. unfold rne_div.
  pose proof (Z.div_mod a d ltac:(lia)) as Hdm.
  pose proof (Z.mod_pos_bound a d Hd) as Hr.
  repeat case_match; rewrite ?Z.ltb_lt, ?Z.ltb_ge in *; nia.
Qed.

Lemma rne_div_recover a d k :
  0 < d → 2 * Z.abs (a - k * d) < d → rne_div a d = k.
Proof.
  intros Hd Hk. unfold rne_div.
  pose proof (Z.div_mod a d ltac:(lia)) as Hdm.
  pose proof (Z.mod_pos_bound a d Hd) as Hr.
  assert (a / d = k ∨ a / d = k - 1) as [Hq|Hq] by nia.
  - rewrite Hq in *. repeat case_match; rewrite ?Z.ltb_lt, ?Z.ltb_ge in *; nia.
  - rewrite Hq in *. repeat case_match; rewrite ?Z.ltb_lt, ?Z.ltb_ge in *; nia.
Qed.

Lemma rne_div_exact k d : 0 < d → rne_div (k * d) d = k.
Proof. intros Hd. apply rne_div_recover; [done|]. replace (k * d - k * d) with 0; lia. Qed.

Lemma rne_div_nonneg a d : 0 ≤ a → 0 < d → 0 ≤ rne_div a d.
Proof. intros Ha Hd. pose proof (rne_div_error a d Hd). nia. Qed.

End RoundingArithmetic.

Section Log2Ratio.
Local Open Scope Z_scope.

Lemma pow2_pos n : 0 ≤ n → 0 < 2 ^ n.
Proof. intros. apply Z.pow_pos_nonneg; lia. Qed.

Lemma pow2_split n m : 0 ≤ n → 0 ≤ m → 2 ^ (n + m) = 2 ^ n * 2 ^ m.
Proof. intros. apply Z.pow_add_r; lia. Qed.

(** [floor_log2_ratio num den] is the binary exponent of [num/den]. *)
Lemma floor_log2_ratio_spec num den p :
  0 < num → 0 < den → 0 ≤ p → floor_log2_ratio num den ≤ p →
  den * 2 ^ p ≤ num * 2 ^ (p - floor_log2_ratio num den) < den * 2 ^ (p + 1).
Proof.
  intros Hn Hd Hp. unfold floor_log2_ratio.
  pose proof (Z.log2_spec num Hn) as Ha.
  pose proof (Z.log2_spec den Hd) as Hb.
  pose proof (Z.log2_nonneg num) as Ha0.
  pose proof (Z.log2_nonneg den) as Hb0.
  set (a := Z.log2 num) in *. set (b := Z.log2 den) in *.
  rewrite !Z.pow_succ_r in * by lia.
  rewrite (pow2_split p 1) by lia. change (2 ^ 1) with 2.
  pose proof (pow2_pos p Hp) as Hp2.
  pose proof (pow2_pos a Ha0) as Hpa.
  pose proof (pow2_pos b Hb0) as Hpb.
  destruct (Z.leb_spec 0 (a - b)) as [Hl|Hl].
  - assert (2 ^ a = 2 ^ b * 2 ^ (a - b)) as Hab
      by (rewrite <- pow2_split by lia; f_equal; lia).
    pose proof (pow2_pos (a - b) Hl) as Hpl.
    set (L := 2 ^ (a - b)) in *.
    destruct (Z.ltb_spec num (den * L)) as [Hlt|Hge]; intros Hle.
    + replace (p - (a - b - 1)) with (p - (a - b) + 1) by lia.
      assert (L * 2 ^ (p - (a - b) + 1) = 2 * 2 ^ p) as Hpp.
      { unfold L. rewrite <- pow2_split by lia.
        replace (a - b + (p - (a - b) + 1)) with (p + 1) by lia.
        rewrite pow2_split by lia. change (2 ^ 1) with 2. lia. }
      pose proof (pow2_pos (p - (a - b) + 1) ltac:(lia)) as Hpq.
      set (Q := 2 ^ (p - (a - b) + 1)) in *.
      assert (den * L < 2 * num) as H1 by nia.
      assert (den * L * Q < 2 * num * Q) as H2
        by (apply Z.mul_lt_mono_pos_r; lia).
      assert (num * Q < den * L * Q) as H3
        by (apply Z.mul_lt_mono_pos_r; lia).
      replace (den * L * Q) with (den * (2 * 2 ^ p)) in * by (rewrite <- Hpp; ring).
      lia.
    + assert (L * 2 ^ (p - (a - b)) = 2 ^ p) as Hpp.
      { unfold L. rewrite <- pow2_split by lia. f_equal. lia. }
      pose proof (pow2_pos (p - (a - b)) ltac:(lia)) as Hpq.
      set (Q := 2 ^ (p - (a - b))) in *.
      assert (num < 2 * den * L) as H1 by nia.
      assert (den * L * Q ≤ num * Q) as H2
        by (apply Z.mul_le_mono_nonneg_r; lia).
      assert (num * Q < 2 * den * L * Q) as H3
        by (apply Z.mul_lt_mono_pos_r; lia).
      replace (den * L * Q) with (den * 2 ^ p) in * by (rewrite <- Hpp; ring).
      replace (2 * den * L * Q) with (den * 2 ^ p * 2) in * by (rewrite <- Hpp; ring).
      lia.
  - assert (2 ^ b = 2 ^ a * 2 ^ (- (a - b))) as Hab
      by (rewrite <- pow2_split by lia; f_equal; lia).
    pose proof (pow2_pos (- (a - b)) ltac:(lia)) as Hpl.
    set (L := 2 ^ (- (a - b))) in *.
    destruct (Z.ltb_spec (num * L) den) as [Hlt|Hge]; intros Hle.
    + replace (p - (a - b - 1)) with (- (a - b) + (p + 1)) by lia.
      rewrite pow2_split, (pow2_split p 1) by lia. change (2 ^ 1) with 2.
      fold L.
      assert (den < 2 * (num * L)) as H1 by nia.
      nia.
    + replace (p - (a - b)) with (- (a - b) + p) by lia.
      rewrite pow2_split by lia. fold L.
      assert (num * L < 2 * den) as H1 by nia.
      nia.
Qed.

End Log2Ratio.

Section NearestFloat.
Local Open Scope Z_scope.

Lemma pow2_gt_inv a b : 0 ≤ a → 0 ≤ b → 2 ^ b < 2 ^ a → b < a.
Proof. intros Ha Hb H. apply (Z.pow_lt_mono_r_iff 2); lia. Qed.

(** Below [2^39], a decimal with four places survives the trip through
    the nearest binary64 value: re-deriving the four-place decimal of that
    value gives the digits back. *)
Lemma nearest_float_decimal s k :
  0 < k ≤ 2 ^ 39 * 10000 →
  ∃ m e, nearest_float s k 10000 = S754_finite s m e ∧ decimal4 m e = k.
Proof.
  intros [Hk0 Hk].
  destruct (Z.eq_dec k (2 ^ 39 * 10000)) as [->|Hne].
  { eexists _, _. split; vm_compute; reflexivity. }
  assert (k < 2 ^ 39 * 10000) as Hlt by lia. clear Hk Hne.
  unfold nearest_float.
  destruct (Z.eqb_spec k 0) as [|_]; [lia|].
  set (lq := floor_log2_ratio k 10000).
  assert (-14 ≤ lq ≤ 52) as Hlq.
  { unfold lq, floor_log2_ratio. change (Z.log2 10000) with 13.
    pose proof (Z.log2_nonneg k).
    assert (Z.log2 k < 53).
    { apply Z.log2_lt_pow2; lia. }
    repeat case_match; lia. }
  pose proof (floor_log2_ratio_spec k 10000 52 Hk0 ltac:(lia) ltac:(lia)
                ltac:(fold lq; lia)) as Hspec.
  fold lq in Hspec.
  rewrite Z.max_l by lia.
  set (t := 52 - lq) in *.
  replace (lq - 52) with (- t) by lia.
  replace (- - t) with t by lia.
  pose proof (pow2_pos t ltac:(lia)) as HD.
  assert (13 < t) as Ht.
  { apply pow2_gt_inv; [lia..|]. change (2 ^ 13) with 8192.
    change (2 ^ 52) with 4503599627370496 in Hspec.
    change (2 ^ 39) with 549755813888 in Hlt. nia. }
  destruct (Z.ltb_spec (- t) 0) as [_|]; [|lia].
  assert (2 ^ t = 2 * 2 ^ (t - 1)) as HD2.
  { replace t with (1 + (t - 1)) at 1 by lia. rewrite pow2_split by lia. done. }
  assert (8192 ≤ 2 ^ (t - 1)) as HD1.
  { change 8192 with (2 ^ 13). apply Z.pow_le_mono_r; lia. }
  pose proof (rne_div_error (k * 2 ^ t) 10000 ltac:(lia)) as Herr.
  set (m0 := rne_div (k * 2 ^ t) 10000) in *.
  change (2 ^ 52) with 4503599627370496 in *.
  change (2 ^ (52 + 1)) with 9007199254740992 in *.
  change (2 ^ 53) with 9007199254740992 in *.
  assert (4503599627370496 ≤ m0 ≤ 9007199254740992) as Hm0 by lia.
  destruct (Z.eqb_spec m0 9007199254740992) as [Hc|Hc].
  - destruct (Z.eqb_spec 4503599627370496 0) as [|_]; [lia|].
    destruct (Z.ltb_spec 971 (- t + 1)) as [|_]; [lia|].
    eexists _, _. split; [reflexivity|].
    unfold decimal4. destruct (Z.leb_spec 0 (- t + 1)) as [|_]; [lia|].
    replace (- (- t + 1)) with (t - 1) by lia.
    apply rne_div_recover; [lia|].
    change (Z.pos (Z.to_pos 4503599627370496)) with 4503599627370496. lia.
  - destruct (Z.eqb_spec m0 0) as [|_]; [lia|].
    destruct (Z.ltb_spec 971 (- t)) as [|_]; [lia|].
    eexists _, _. split; [reflexivity|].
    unfold decimal4. destruct (Z.leb_spec 0 (- t)) as [|_]; [lia|].
    replace (- - t) with t by lia.
    apply rne_div_recover; [lia|].
    rewrite Z2Pos.id by lia. lia.
Qed.

End NearestFloat.

Section Round4.
Local Open Scope Z_scope.

Lemma floor_log2_ratio_unique num den u :
  0 < num → 0 < den → 0 ≤ u →
  den * 2 ^ u ≤ num < den * 2 ^ (u + 1) →
  floor_log2_ratio num den = u.
Proof.
  intros Hn Hd Hu [Hlo Hhi].
  set (lq := floor_log2_ratio num den).
  pose proof (pow2_pos u Hu) as HU.
  rewrite pow2_split in Hhi by lia. change (2 ^ 1) with 2 in Hhi.
  assert (u ≤ lq) as Hle.
  { destruct (Z.le_gt_cases u lq) as [|Hgt]; [done|exfalso].
    pose proof (floor_log2_ratio_spec num den u Hn Hd Hu ltac:(fold lq; lia)) as [_ Hs].
    fold lq in Hs. rewrite pow2_split in Hs by lia. change (2 ^ 1) with 2 in Hs.
    assert (2 ≤ 2 ^ (u - lq)).
    { change 2 with (2 ^ 1) at 1. apply Z.pow_le_mono_r; lia. }
    nia. }
  pose proof (floor_log2_ratio_spec num den lq Hn Hd ltac:(lia) ltac:(fold lq; lia)) as [Hs _].
  fold lq in Hs. rewrite Z.sub_diag in Hs. change (2 ^ 0) with 1 in Hs.
  assert (lq < u + 1); [|lia].
  apply pow2_gt_inv; [lia..|].
  rewrite pow2_split by lia. change (2 ^ 1) with 2.
  pose proof (pow2_pos lq ltac:(lia)). nia.
Qed.

Lemma digits2_pos_spec m :
  2 ^ (Z.pos (digits2_pos m) - 1) ≤ Z.pos m < 2 ^ Z.pos (digits2_pos m).
Proof.
  induction m as [m IH|m IH|]; simpl digits2_pos; [| |simpl; lia].
  all: rewrite Pos2Z.inj_succ;
    replace (Z.succ (Z.pos (digits2_pos m)) - 1) with (Z.pos (digits2_pos m)) by lia;
    rewrite Z.pow_succ_r by lia;
    replace (Z.pos (digits2_pos m)) with (1 + (Z.pos (digits2_pos m) - 1)) at 1 by lia;
    rewrite pow2_split by lia; change (2 ^ 1) with 2; lia.
Qed.

(** A valid binary64 value is normal (53 significant bits) or subnormal
    (least exponent, fewer bits). *)
Lemma float_valid_finite s m e :
  float_valid (S754_finite s m e) = true →
  (2 ^ 52 ≤ Z.pos m < 2 ^ 53 ∧ -1074 ≤ e ≤ 971)
  ∨ (Z.pos m < 2 ^ 52 ∧ e = -1074).
Proof.
  unfold float_valid, valid_binary, bounded, canonical_mantissa, fexp, emin.
  rewrite andb_true_iff, Z.eqb_eq, Z.leb_le.
  pose proof (digits2_pos_spec m) as Hd.
  set (d := Z.pos (digits2_pos m)) in *.
  assert (0 < d) by (unfold d; lia).
  intros [Hc He].
  destruct (Z.eq_dec d 53) as [E|E].
  - left. rewrite E in *. change (53 - 1) with 52 in Hd. lia.
  - right. assert (d < 53) by lia.
    split; [|lia].
    eapply Z.lt_le_trans; [apply Hd|]. apply Z.pow_le_mono_r; lia.
Qed.

Lemma decimal4_nonneg m e : 0 ≤ decimal4 m e.
Proof.
  unfold decimal4. destruct (Z.leb_spec 0 e).
  - pose proof (pow2_pos e ltac:(lia)). nia.
  - apply rne_div_nonneg; [lia|]. apply pow2_pos. lia.
Qed.

Lemma decimal4_small m e :
  Z.pos m < 2 ^ 53 → e ≤ -14 → decimal4 m e ≤ 2 ^ 39 * 10000.
Proof.
  intros Hm He. unfold decimal4. destruct (Z.leb_spec 0 e); [lia|].
  assert (2 ^ 14 ≤ 2 ^ (- e)) as HD by (apply Z.pow_le_mono_r; lia).
  pose proof (rne_div_error (Z.pos m * 10000) (2 ^ (- e)) ltac:(lia)) as Herr.
  set (D := 2 ^ (- e)) in *. set (k := rne_div _ _) in *.
  change (2 ^ 14) with 16384 in HD. change (2 ^ 53) with 9007199254740992 in Hm.
  change (2 ^ 39) with 549755813888.
  destruct (Z.le_gt_cases k (549755813888 * 10000)) as [|Hgt]; [done|exfalso].
  assert ((549755813888 * 10000 + 1) * D ≤ k * D) by (apply Z.mul_le_mono_nonneg_r; lia).
  nia.
Qed.

(** From [2^39] on, binary64 values are more than [1e-4] apart and
    rounding to four places returns the value itself. *)
Lemma round4_large s m e :
  2 ^ 52 ≤ Z.pos m < 2 ^ 53 → -13 ≤ e ≤ 971 →
  round4 (S754_finite s m e) = S754_finite s m e.
Proof.
  intros Hm He. unfold round4, nearest_float.
  change (2 ^ 52) with 4503599627370496 in *.
  change (2 ^ 53) with 9007199254740992 in *.
  set (k := decimal4 m e).
  assert (10000 * 2 ^ (52 + e) ≤ k < 10000 * 2 ^ (52 + e + 1)
          ∧ (if e <? 0 then rne_div (k * 2 ^ (- e)) 10000
             else rne_div k (10000 * 2 ^ e)) = Z.pos m) as [Hk Hm0].
  { unfold k, decimal4. destruct (Z.leb_spec 0 e) as [He0|He0].
    - destruct (Z.ltb_spec e 0) as [|_]; [lia|].
      rewrite !pow2_split by lia. change (2 ^ 1) with 2.
      change (2 ^ 52) with 4503599627370496.
      pose proof (pow2_pos e He0). split; [nia|].
      replace (Z.pos m * 2 ^ e * 10000) with (Z.pos m * (10000 * 2 ^ e)) by ring.
      apply rne_div_exact. lia.
    - destruct (Z.ltb_spec e 0) as [_|]; [|lia].
      assert (2 ^ (- e) ≤ 2 ^ 13) as HD by (apply Z.pow_le_mono_r; lia).
      pose proof (pow2_pos (- e) ltac:(lia)) as HD0.
      assert (2 ^ (52 + e) * 2 ^ (- e) = 4503599627370496) as HU.
      { rewrite <- pow2_split by lia. replace (52 + e + - e) with 52 by lia. done. }
      pose proof (pow2_pos (52 + e) ltac:(lia)) as HU0.
      rewrite (pow2_split (52 + e) 1) by lia. change (2 ^ 1) with 2.
      pose proof (rne_div_error (Z.pos m * 10000) (2 ^ (- e)) ltac:(lia)) as Herr.
      set (D := 2 ^ (- e)) in *. set (U := 2 ^ (52 + e)) in *.
      set (r := rne_div (Z.pos m * 10000) D) in *.
      change (2 ^ 13) with 8192 in HD.
      split.
      + split.
        * destruct (Z.le_gt_cases (10000 * U) r) as [|Hgt]; [done|exfalso].
          assert (r * D ≤ (10000 * U - 1) * D) by (apply Z.mul_le_mono_nonneg_r; lia).
          nia.
        * destruct (Z.lt_ge_cases r (10000 * (U * 2))) as [|Hge]; [done|exfalso].
          assert (10000 * (U * 2) * D ≤ r * D) by (apply Z.mul_le_mono_nonneg_r; lia).
          nia.
      + apply rne_div_recover; lia. }
  destruct (Z.eqb_spec k 0) as [Hz|_].
  { pose proof (pow2_pos (52 + e) ltac:(lia)). lia. }
  rewrite (floor_log2_ratio_unique k 10000 (52 + e)); [|lia..|done].
  replace (52 + e - 52) with e by lia. rewrite Z.max_l by lia.
  rewrite Hm0.
  destruct (Z.eqb_spec (Z.pos m) 9007199254740992) as [|_]; [lia|].
  destruct (Z.eqb_spec (Z.pos m) 0) as [|_]; [lia|].
  destruct (Z.ltb_spec 971 e) as [|_]; [lia|].
  reflexivity.
Qed.

(** The rounded value is zero of the same sign or a finite value of the
    same sign whose own four-place decimal is that of the input. *)
Lemma round4_decimal s m e :
  float_valid (S754_finite s m e) = true →
  (decimal4 m e = 0 ∧ round4 (S754_finite s m e) = S754_zero s)
  ∨ (∃ m' e', round4 (S754_finite s m e) = S754_finite s m' e'
              ∧ decimal4 m' e' = decimal4 m e).
Proof.
  intros Hv.
  assert (Z.pos m < 2 ^ 53 ∧ e ≤ -14
          ∨ 2 ^ 52 ≤ Z.pos m < 2 ^ 53 ∧ -13 ≤ e ≤ 971) as [[Hm He]|[Hm He]].
  { destruct (float_valid_finite s m e Hv) as [[??]|[??]]; [|left; lia].
    destruct (Z.le_gt_cases e (-14)); [left|right]; lia. }
  - pose proof (decimal4_small m e Hm He) as Hk.
    pose proof (decimal4_nonneg m e) as Hk0.
    destruct (Z.eq_dec (decimal4 m e) 0) as [Hz|Hz].
    + left. split; [done|]. unfold round4. rewrite Hz. reflexivity.
    + right. unfold round4. apply nearest_float_decimal. lia.
  - right. exists m, e. split; [|done]. by apply round4_large.
Qed.

Lemma round4_number x :
  float_is_number x = true → float_valid x = true →
  round4 x = nearest_float (float_sign x) (float_decimal4 x) 10000.
Proof. destruct x; try done. Qed.

Lemma format4_round4 x :
  float_is_number x = true → float_valid x = true →
  format4 (round4 x) = fixed4 (float_sign x) (float_decimal4 x).
Proof.
  destruct x as [s|s| |s m e]; try done. intros _ Hv.
  change (float_sign _) with s. change (float_decimal4 _) with (decimal4 m e).
  destruct (round4_decimal s m e Hv) as [[Hz ->]|(m' & e' & -> & Hk)].
  - by rewrite Hz.
  - simpl. by rewrite Hk.
Qed.

Lemma round4_idempotent x :
  float_valid x = true → round4 (round4 x) = round4 x.
Proof.
  destruct x as [s|s| |s m e]; try done. intros Hv.
  destruct (round4_decimal s m e Hv) as [[Hz Hr]|(m' & e' & Hr & Hk)].
  - by rewrite Hr.
  - rewrite Hr. unfold round4 at 1. rewrite Hk. done.
Qed.

End Round4.

Section Strings.

Lemma all_chars_app P s1 s2 :
  all_chars P (s1 +:+ s2) = all_chars P s1 && all_chars P s2.
Proof. induction s1 as [|c s1 IH]; simpl; [done|]. by rewrite IH, andb_assoc. Qed.

Lemma all_chars_weaken (P Q : ascii → bool) s :
  (∀ c, P c = true → Q c = true) → all_chars P s = true → all_chars Q s = true.
Proof.
  intros HPQ. induction s as [|c s IH]; simpl; [done|].
  intros [Hc Hs]%andb_true_iff. apply andb_true_iff. auto.
Qed.

(** Two strings made of [P]-characters followed by the same non-[P]
    separator agree piecewise. *)
Lemma separator_split P c s1 s2 t1 t2 :
  all_chars P s1 = true → all_chars P s2 = true → P c = false →
  s1 +:+ String c t1 = s2 +:+ String c t2 → s1 = s2 ∧ t1 = t2.
Proof.
  intros H1 H2 Hc. revert s2 H2.
  induction s1 as [|a s1 IH]; intros [|b s2] H2 Heq; simpl in *.
  - by simplify_eq.
  - simplify_eq. rewrite Hc in H2. done.
  - simplify_eq. rewrite Hc in H1. done.
  - apply andb_true_iff in H1 as [_ H1]. apply andb_true_iff in H2 as [_ H2].
    simplify_eq. destruct (IH H1 s2 H2) as [-> ->]; done.
Qed.

Lemma string_length_app s1 s2 :
  String.length (s1 +:+ s2) = (String.length s1 + String.length s2)%nat.
Proof. induction s1 as [|c s1 IH]; simpl; [done|]. by rewrite IH. Qed.

Lemma is_digit_pretty_N_char d : is_digit (pretty_N_char d) = true.
Proof. unfold pretty_N_char. by repeat case_match. Qed.

Lemma all_chars_pretty_N_go x s :
  all_chars is_digit s = true → all_chars is_digit (pretty_N_go x s) = true.
Proof.
  revert s. induction (N.lt_wf_0 x) as [x _ IH]; intros s Hs.
  destruct (decide (x = 0)%N) as [->|]; [by rewrite pretty_N_go_0|].
  rewrite pretty_N_go_step by lia. apply IH.
  - apply N.div_lt; lia.
  - simpl. by rewrite is_digit_pretty_N_char.
Qed.

Lemma all_chars_pretty_Z (z : Z) :
  (0 ≤ z)%Z → all_chars is_digit (pretty z) = true.
Proof.
  destruct z as [|p|p]; [done| |lia]. intros _.
  unfold pretty, pretty_Z, pretty, pretty_positive, pretty, pretty_N.
  case_decide; [done|]. by apply all_chars_pretty_N_go.
Qed.

End Strings.

Section Fixed4.
Local Open Scope Z_scope.

Lemma digit_inj d d' : 0 ≤ d < 10 → 0 ≤ d' < 10 → digit d = digit d' → d = d'.
Proof.
  intros Hd Hd' H. unfold digit in H.
  apply pretty_N_char_inj in H; [|lia..].
  apply (f_equal Z.of_N) in H. rewrite !Z2N.id in H; lia.
Qed.

Lemma frac4_inj f f' :
  0 ≤ f < 10000 → 0 ≤ f' < 10000 → frac4 f = frac4 f' → f = f'.
Proof.
  intros Hf Hf' H. unfold frac4 in H. injection H as H1 H2 H3 H4.
  apply digit_inj in H1; [|Z.div_mod_to_equations; lia..].
  apply digit_inj in H2; [|Z.div_mod_to_equations; lia..].
  apply digit_inj in H3; [|Z.div_mod_to_equations; lia..].
  apply digit_inj in H4; [|Z.div_mod_to_equations; lia..].
  Z.div_mod_to_equations; lia.
Qed.

Lemma all_chars_frac4 f : all_chars is_digit (frac4 f) = true.
Proof. unfold frac4, digit. simpl. by rewrite !is_digit_pretty_N_char. Qed.

Lemma fixed4_unsigned s k : fixed4 s k = sign_prefix s +:+ unsigned4 k.
Proof. done. Qed.

Lemma all_chars_unsigned4 k : 0 ≤ k → all_chars is_numeric (unsigned4 k) = true.
Proof.
  intros Hk. unfold unsigned4. rewrite !all_chars_app, !andb_true_iff.
  split_and!; [|done|].
  - eapply all_chars_weaken;
      [|apply all_chars_pretty_Z; Z.div_mod_to_equations; lia].
    intros c Hc. unfold is_numeric. by rewrite Hc.
  - eapply all_chars_weaken; [|apply all_chars_frac4].
    intros c Hc. unfold is_numeric. by rewrite Hc.
Qed.

Lemma unsigned4_inj k k' : 0 ≤ k → 0 ≤ k' → unsigned4 k = unsigned4 k' → k = k'.
Proof.
  intros Hk Hk' H. unfold unsigned4 in H.
  apply (separator_split is_digit) in H as [Hq Hf];
    [|apply all_chars_pretty_Z; Z.div_mod_to_equations; lia..|done].
  apply (inj pretty) in Hq.
  apply frac4_inj in Hf; Z.div_mod_to_equations; lia.
Qed.

Lemma unsigned4_no_dash k s : 0 ≤ k → unsigned4 k ≠ "-" +:+ s.
Proof.
  intros Hk H. pose proof (all_chars_unsigned4 k Hk) as Hc.
  rewrite H in Hc. done.
Qed.

Lemma fixed4_inj s k s' k' :
  0 ≤ k → 0 ≤ k' → fixed4 s k = fixed4 s' k' → s = s' ∧ k = k'.
Proof.
  intros Hk Hk'. rewrite !fixed4_unsigned.
  destruct s, s'; simpl; intros H.
  - injection H as H. split; [done|]. by apply unsigned4_inj.
  - symmetry in H. by apply unsigned4_no_dash in H.
  - by apply unsigned4_no_dash in H.
  - split; [done|]. by apply unsigned4_inj.
Qed.

Lemma fixed4_length s k : (5 ≤ String.length (fixed4 s k))%nat.
Proof.
  unfold fixed4, unsigned4. rewrite !string_length_app. simpl. lia.
Qed.

Lemma all_chars_fixed4 s k : 0 ≤ k → all_chars key_char (fixed4 s k) = true.
Proof.
  intros Hk. rewrite fixed4_unsigned, all_chars_app.
  apply andb_true_iff. split; [by destruct s|].
  eapply all_chars_weaken; [|by apply all_chars_unsigned4].
  intros c. unfold is_numeric, is_digit, key_char.
  repeat case_match; try done; case_bool_decide; simplify_eq; done.
Qed.

Lemma all_chars_format4 x : all_chars key_char (format4 x) = true.
Proof.
  destruct x as [s|s| |s m e]; simpl.
  - by apply all_chars_fixed4.
  - by destruct s.
  - done.
  - apply all_chars_fixed4, decimal4_nonneg.
Qed.

End Fixed4.

(** ** Equality of floats and of cache keys *)

Section FloatEquality.

Lemma float_eq_cases x y :
  float_eq x y = true →
  (x = y ∧ x ≠ S754_nan) ∨ (is_zero x = true ∧ is_zero y = true).
Proof.
  unfold float_eq, SFeqb.
  destruct x as [s1|s1| |s1 m1 e1], y as [s2|s2| |s2 m2 e2];
    try done; try (by destruct s1); try (by destruct s2).
  - by right.
  - destruct s1, s2; try done; by left.
  - unfold SFcompare.
    change (Pos.compare_cont Eq m1 m2) with (Pos.compare m1 m2).
    destruct s1, s2; try done;
      destruct (Z.compare_spec e1 e2) as [->| |]; try done;
      destruct (Pos.compare_spec m1 m2) as [->| |]; try done;
      by left.
Qed.

Lemma float_eq_refl x : x ≠ S754_nan → float_eq x x = true.
Proof.
  unfold float_eq, SFeqb. destruct x as [s|s| |s m e]; simpl; try done.
  - by destruct s.
  - intros _. rewrite Z.compare_refl.
    assert (Pos.compare_cont Eq m m = Eq) as -> by apply Pos.compare_refl.
    by destruct s.
Qed.

Lemma float_eq_sym x y : float_eq x y = true → float_eq y x = true.
Proof.
  intros H. destruct (float_eq_cases x y H) as [[-> Hn]|[Hx Hy]].
  - by apply float_eq_refl.
  - by destruct x, y.
Qed.

Lemma float_eq_trans x y z :
  float_eq x y = true → float_eq y z = true → float_eq x z = true.
Proof.
  intros H1 H2.
  destruct (float_eq_cases x y H1) as [[-> Hn]|[Hx Hy]]; [done|].
  destruct (float_eq_cases y z H2) as [[<- Hn]|[_ Hz]]; [done|].
  by destruct x, z.
Qed.

Lemma coord_eq_sym a b : coord_eq a b = true → coord_eq b a = true.
Proof.
  unfold coord_eq. rewrite !andb_true_iff. intros [??].
  split; by apply float_eq_sym.
Qed.

Lemma coord_eq_trans a b c :
  coord_eq a b = true → coord_eq b c = true → coord_eq a c = true.
Proof.
  unfold coord_eq. rewrite !andb_true_iff. intros [??] [??].
  split; eapply float_eq_trans; eauto.
Qed.

Lemma coord_eq_left a b c :
  coord_eq a b = true → coord_eq a c = coord_eq b c.
Proof.
  intros Hab. destruct (coord_eq b c) eqn:Hbc.
  - by eapply coord_eq_trans.
  - destruct (coord_eq a c) eqn:Hac; [|done].
    rewrite <- Hbc. symmetry. eapply coord_eq_trans; [|done].
    by apply coord_eq_sym.
Qed.

End FloatEquality.

Section CacheKeys.

Lemma round4_keeps_special x :
  float_is_number x = false → round4 x = x.
Proof. by destruct x. Qed.

Lemma format4_special_length x :
  float_is_number x = false → (String.length (format4 x) < 5)%nat.
Proof. destruct x as [|[]| |]; simpl; try done; lia. Qed.

Lemma float_decimal4_nonneg x : (0 ≤ float_decimal4 x)%Z.
Proof. destruct x; simpl; try lia. apply decimal4_nonneg. Qed.

(** The formatted rounded value determines the rounded value. *)
Lemma format4_round4_inj x y :
  float_valid x = true → float_valid y = true →
  format4 (round4 x) = format4 (round4 y) → round4 x = round4 y.
Proof.
  intros Hx Hy H.
  destruct (float_is_number x) eqn:Nx, (float_is_number y) eqn:Ny.
  - rewrite !format4_round4 in H by done.
    apply fixed4_inj in H as [Hs Hk]; [|apply float_decimal4_nonneg..].
    rewrite !round4_number by done. by rewrite Hs, Hk.
  - exfalso. rewrite format4_round4, (round4_keeps_special y) in H by done.
    pose proof (fixed4_length (float_sign x) (float_decimal4 x)).
    pose proof (format4_special_length y Ny). rewrite H in *. lia.
  - exfalso. rewrite (format4_round4 y), (round4_keeps_special x) in H by done.
    pose proof (fixed4_length (float_sign y) (float_decimal4 y)).
    pose proof (format4_special_length x Nx). rewrite <- H in *. lia.
  - rewrite !round4_keeps_special in * by done.
    destruct x as [|[]| |], y as [|[]| |]; done.
Qed.

Lemma cache_key_components lat1 lon1 lat2 lon2 :
  cache_key lat1 lon1 = cache_key lat2 lon2 →
  format4 (round4 lat1) = format4 (round4 lat2)
  ∧ format4 (round4 lon1) = format4 (round4 lon2).
Proof.
  unfold cache_key. intros H.
  apply (separator_split key_char) in H; [done|apply all_chars_format4..|done].
Qed.

Lemma cache_key_round lat lon :
  float_valid lat = true → float_valid lon = true →
  cache_key (round4 lat) (round4 lon) = cache_key lat lon.
Proof. intros. unfold cache_key. by rewrite !round4_idempotent. Qed.

Lemma cache_key_inj lat1 lon1 lat2 lon2 :
  float_valid lat1 = true → float_valid lon1 = true →
  float_valid lat2 = true → float_valid lon2 = true →
  cache_key lat1 lon1 = cache_key lat2 lon2 →
  round4 lat1 = round4 lat2 ∧ round4 lon1 = round4 lon2.
Proof.
  intros ???? [??]%cache_key_components. split; by apply format4_round4_inj.
Qed.

(** The cache keys of binary64 coordinates are the same string exactly
    when the latitudes round at four decimals to the same float and the
    longitudes round to the same float, the same float being the same
    binary64 value: [-0.0] and [0.0] are two ([-0.0000] and [0.0000] in
    the key).  Equal keys imply that the rounded values compare equal with
    [==], unless one is NaN; the converse fails on the zeros only. *)
Lemma cache_key_same_iff lat1 lon1 lat2 lon2 :
  float_valid lat1 = true → float_valid lon1 = true →
  float_valid lat2 = true → float_valid lon2 = true →
  (cache_key lat1 lon1 = cache_key lat2 lon2
   ↔ round4 lat1 = round4 lat2 ∧ round4 lon1 = round4 lon2)
  ∧ (cache_key lat1 lon1 = cache_key lat2 lon2 →
     round4 lat1 ≠ S754_nan → round4 lon1 ≠ S754_nan →
     coord_eq (round_coord (lat1, lon1)) (round_coord (lat2, lon2)) = true).
Proof.
  intros V1 V2 V3 V4. split; [split|].
  - by apply cache_key_inj.
  - intros [H1 H2]. unfold cache_key. by rewrite H1, H2.
  - intros [H1 H2]%cache_key_inj N1 N2; [|done..].
    unfold coord_eq, round_coord. cbn [fst snd]. rewrite <- H1, <- H2.
    by rewrite !float_eq_refl.
Qed.

Lemma float_eq_round4_key lat1 lon1 lat2 lon2 :
  float_valid lat1 = true → float_valid lon1 = true →
  float_valid lat2 = true → float_valid lon2 = true →
  coord_eq (round_coord (lat1, lon1)) (round_coord (lat2, lon2)) = true →
  is_zero (round4 lat1) = false → is_zero (round4 lon1) = false →
  cache_key lat1 lon1 = cache_key lat2 lon2.
Proof.
  intros V1 V2 V3 V4 [H1 H2]%andb_true_iff Z1 Z2. cbn [round_coord fst snd] in *.
  apply cache_key_same_iff; [done..|].
  apply float_eq_cases in H1 as [[H1 _]|[H1 _]]; [|congruence].
  apply float_eq_cases in H2 as [[H2 _]|[H2 _]]; [|congruence].
  done.
Qed.

(** Coordinates that compare equal after rounding have the same key,
    unless a rounded component is a zero. *)
Lemma same_key_unless_zero (p p' : coord) :
  valid_coord p → valid_coord p' →
  coord_eq (round_coord p') (round_coord p) = true →
  is_zero (round4 p.1) = false → is_zero (round4 p.2) = false →
  cache_key p'.1 p'.2 = cache_key p.1 p.2.
Proof.
  intros [V1 V2] [V3 V4] Heq Z1 Z2. symmetry.
  apply float_eq_round4_key; try done.
  apply coord_eq_sym. by destruct p, p'.
Qed.

(** C3 at the input where the code breaks it: the latitudes [-0.00001]
    and [0.00001] round at four decimals to [-0.0] and [0.0], which are
    equal values, the longitudes are the same, and the two cache keys are
    different strings, so the equivalence C3 states is false there. *)
Theorem cache_key_signed_zero :
  let lat1 := float_literal true 1 5 in
  let lat2 := float_literal false 1 5 in
  let lon := float_of_Z 2 in
  float_valid lat1 = true ∧ float_valid lat2 = true ∧ float_valid lon = true
  ∧ round4 lat1 = S754_zero true ∧ round4 lat2 = S754_zero false
  ∧ float_eq (round4 lat1) (round4 lat2) = true
  ∧ float_eq (round4 lon) (round4 lon) = true
  ∧ cache_key lat1 lon = "-0.0000,2.0000"
  ∧ cache_key lat2 lon = "0.0000,2.0000"
  ∧ ¬ (cache_key lat1 lon = cache_key lat2 lon
       ↔ float_eq (round4 lat1) (round4 lat2) = true
         ∧ float_eq (round4 lon) (round4 lon) = true).
Proof.
  intros lat1 lat2 lon. split_and!; try (vm_compute; reflexivity).
  intros [_ H].
  assert (cache_key lat1 lon = cache_key lat2 lon) as Hk
    by (apply H; vm_compute; split; reflexivity).
  vm_compute in Hk. discriminate Hk.
Qed.

End CacheKeys.

(** ** Dictionaries and sets keyed by float tuples *)

Section Containers.

Lemma dict_get_set k k' v d :
  dict_get k (dict_set k' v d)
  = if coord_eq k' k then Some v else dict_get k d.
Proof.
  induction d as [|[k0 v0] d IH]; simpl; [done|].
  destruct (coord_eq k0 k') eqn:E0; simpl.
  - rewrite (coord_eq_left _ _ k E0). by destruct (coord_eq k' k).
  - rewrite IH. destruct (coord_eq k0 k) eqn:E1, (coord_eq k' k) eqn:E2; try done.
    rewrite (coord_eq_trans k0 k k') in E0; [done|done|by apply coord_eq_sym].
Qed.

Lemma dict_get_fold k items d :
  dict_get k (fold_left (λ d kv, dict_set kv.1 kv.2 d) items d)
  = last_value k items (dict_get k d).
Proof.
  revert d. induction items as [|kv items IH]; intros d; simpl; [done|].
  by rewrite IH, dict_get_set.
Qed.

Lemma last_value_all k items acc v :
  (∀ kv, kv ∈ items → coord_eq kv.1 k = true → kv.2 = v) →
  acc = Some v ∨ (∃ kv, kv ∈ items ∧ coord_eq kv.1 k = true) →
  last_value k items acc = Some v.
Proof.
  revert acc. induction items as [|kv items IH]; intros acc Hall Hex; simpl.
  - destruct Hex as [->|(kv & Hin & _)]; [done|]. by apply elem_of_nil in Hin.
  - apply IH.
    + intros kv' Hin. apply Hall. by right.
    + destruct (coord_eq kv.1 k) eqn:E.
      * left. f_equal. apply Hall; [by left|done].
      * destruct Hex as [->|(kv' & Hin & E')]; [by left|].
        apply elem_of_cons in Hin as [->|Hin]; [congruence|].
        right. by exists kv'.
Qed.

Lemma set_of_list_acc l acc u : u ∈ acc → u ∈ set_of_list l acc.
Proof.
  revert acc. induction l as [|x l IH]; intros acc Hu; simpl; [done|].
  apply IH. destruct (existsb _ acc); [done|]. apply elem_of_app. by left.
Qed.

Lemma set_of_list_elem l acc u :
  u ∈ set_of_list l acc → u ∈ acc ∨ u ∈ l.
Proof.
  revert acc. induction l as [|x l IH]; intros acc Hu; simpl in *; [by left|].
  apply IH in Hu as [Hu|Hu]; [|right; by right].
  destruct (existsb _ acc); [by left|].
  apply elem_of_app in Hu as [Hu|Hu%list_elem_of_singleton]; [by left|].
  right. subst. by left.
Qed.

(** Every element of the list has a representative in the set: itself,
    or an earlier element equal to it. *)
Lemma set_of_list_covers l acc x :
  x ∈ l → ∃ u, u ∈ set_of_list l acc ∧ (u = x ∨ coord_eq u x = true).
Proof.
  revert acc. induction l as [|y l IH]; intros acc Hx; [by apply elem_of_nil in Hx|].
  apply elem_of_cons in Hx as [->|Hx]; [|by apply IH]. simpl.
  destruct (existsb _ acc) eqn:E.
  - apply existsb_exists in E as (u & Hu%list_elem_of_In & Hux).
    exists u. split; [by apply set_of_list_acc|by right].
  - exists y. split; [|by left].
    apply set_of_list_acc, elem_of_app. right. by apply list_elem_of_singleton.
Qed.

(** No two elements of the set are equal. *)
Lemma set_of_list_distinct l acc x :
  length (matching x acc) ≤ 1 → length (matching x (set_of_list l acc)) ≤ 1.
Proof.
  revert acc. induction l as [|y l IH]; intros acc Hacc; simpl; [done|].
  apply IH. destruct (existsb _ acc) eqn:E; [done|].
  unfold matching in *. rewrite filter_app, length_app.
  destruct (coord_eq y x) eqn:Eyx.
  - rewrite filter_cons_True by done. simpl.
    destruct (filter _ acc) as [|u rest] eqn:F; [simpl; lia|exfalso].
    assert (u ∈ filter (λ u, coord_eq u x = true) acc) as Hu
      by (rewrite F; by left).
    apply list_elem_of_filter in Hu as [Hux Hu].
    assert (existsb (λ y0, coord_eq y0 y) acc = true) as E'; [|congruence].
    apply existsb_exists. exists u. split; [by apply list_elem_of_In|].
    eapply coord_eq_trans; [done|]. by apply coord_eq_sym.
  - rewrite filter_cons_False by congruence. simpl. lia.
Qed.

Lemma matching_sublist x l1 l2 :
  l1 `sublist_of` l2 → length (matching x l1) ≤ length (matching x l2).
Proof.
  unfold matching. induction 1 as [|y l1 l2 _ IH|y l1 l2 _ IH]; [done|..].
  - destruct (decide (coord_eq y x = true)).
    + rewrite !filter_cons_True by done. simpl. lia.
    + by rewrite !filter_cons_False by done.
  - destruct (decide (coord_eq y x = true)).
    + rewrite filter_cons_True by done. simpl. lia.
    + by rewrite filter_cons_False by done.
Qed.

End Containers.

(** ** What the programs compute *)

Section Runs.
Variable env : environment.

Lemma bind_run {A B} (m : M A) (k : A → M B) w :
  (m ≫= k) w
  = match m w with
    | (Returned a, w') => k a w'
    | (Raised e, w') => (Raised e, w')
    end.
Proof. reflexivity. Qed.

Lemma process_coord_run lat lon key w :
  process_coord env lat lon key w
  = (Returned (key, outcome_text
                      (reverse env (service_calls (trace w)) (lat, lon))),
     log [EvReverse (lat, lon)] w).
Proof.
  unfold process_coord, try_except, call_reverse.
  rewrite !bind_run. cbn.
  by destruct (reverse env (service_calls (trace w)) (lat, lon)).
Qed.

Lemma resolve_run new_coords w :
  resolve env new_coords w
  = (Returned (), fold_left (resolve_step env) new_coords w).
Proof.
  revert w. induction new_coords as [|[[lat lon] key] rest IH]; intros w.
  - by destruct w.
  - simpl resolve. rewrite bind_run, process_coord_run. cbn. apply IH.
Qed.

Lemma save_cache_run w : save_cache env w = (Returned (), save_world env w).
Proof. unfold save_cache, save_world. by destruct (cache_writable env). Qed.

Lemma batch_geocode_run coordinates w :
  batch_geocode env coordinates w
  = match uncached (cache w) coordinates with
    | [] => (Returned [], w)
    | (_ :: _) as new_coords =>
        let w' := geocoded_world env new_coords w in
        (Returned
           (dict_of_items
              ((λ p : coord,
                  (round_coord p,
                   default "Error" (cache w' !! cache_key p.1 p.2)))
                 <$> coordinates)),
         w')
    end.
Proof.
  unfold batch_geocode. rewrite bind_run. cbn [get_cache].
  destruct (uncached (cache w) coordinates) as [|n new] eqn:E; [done|].
  rewrite bind_run. cbn [print emit]. rewrite bind_run, resolve_run.
  rewrite bind_run, save_cache_run. reflexivity.
Qed.

(** The store after the resolutions. *)

Lemma resolved_cache_file new_coords w :
  cache_file (fold_left (resolve_step env) new_coords w) = cache_file w.
Proof.
  revert w. induction new_coords as [|n rest IH]; intros w; simpl; [done|].
  by rewrite IH.
Qed.

Lemma resolved_trace new_coords w :
  trace (fold_left (resolve_step env) new_coords w)
  = trace w ++ (EvReverse ∘ call_of <$> new_coords).
Proof.
  revert w. induction new_coords as [|n rest IH]; intros w; simpl.
  - by rewrite app_nil_r.
  - rewrite IH. simpl. by rewrite <- app_assoc.
Qed.

Lemma service_calls_app t1 t2 :
  service_calls (t1 ++ t2) = service_calls t1 ++ service_calls t2.
Proof. apply omap_app. Qed.

Lemma service_calls_reverse (l : list (float * float * string)) :
  service_calls (EvReverse ∘ call_of <$> l) = call_of <$> l.
Proof. induction l as [|n l IH]; simpl; [done|]. by f_equal. Qed.

Lemma resolved_other new_coords w k :
  k ∉ (snd <$> new_coords) →
  cache (fold_left (resolve_step env) new_coords w) !! k = cache w !! k.
Proof.
  revert w. induction new_coords as [|n rest IH]; intros w Hk; simpl; [done|].
  rewrite fmap_cons in Hk. apply not_elem_of_cons in Hk as [Hne Hk].
  rewrite IH by done. simpl. by rewrite lookup_insert_ne.
Qed.

(** The entry of a key is the text of the outcome of its last call. *)
Lemma resolved_value new_coords w i n :
  new_coords !! i = Some n →
  (∀ j n', i < j → new_coords !! j = Some n' → n'.2 ≠ n.2) →
  cache (fold_left (resolve_step env) new_coords w) !! n.2
  = Some (outcome_text
            (reverse env
               (service_calls (trace w) ++ (call_of <$> take i new_coords))
               (call_of n))).
Proof.
  revert w i. induction new_coords as [|m rest IH]; intros w i Hi Hlast; [done|].
  destruct i as [|i]; simpl in *.
  - simplify_eq. rewrite resolved_other.
    + simpl. rewrite lookup_insert_eq. by rewrite app_nil_r.
    + intros (n' & Hk & Hin)%list_elem_of_fmap.
      apply list_elem_of_lookup in Hin as [j Hj].
      by apply (Hlast (S j) n'); [lia|..].
  - rewrite (IH _ i) by (try done; intros j n' ?; apply (Hlast (S j)); lia).
    simpl. rewrite service_calls_app. simpl. by rewrite <- app_assoc.
Qed.

Lemma resolved_covers new_coords w k :
  k ∈ (snd <$> new_coords) →
  is_Some (cache (fold_left (resolve_step env) new_coords w) !! k).
Proof.
  revert w. induction new_coords as [|m rest IH]; intros w Hk;
    [by apply elem_of_nil in Hk|].
  simpl. destruct (decide (k ∈ (snd <$> rest))) as [|Hout]; [by apply IH|].
  rewrite fmap_cons in Hk. apply elem_of_cons in Hk as [->|]; [|done].
  rewrite resolved_other by done. simpl. rewrite lookup_insert_eq. eauto.
Qed.

(** Every entry after the resolutions was there before or is the text of
    an outcome for a coordinate with that key. *)
Lemma resolved_origin new_coords w k v :
  cache (fold_left (resolve_step env) new_coords w) !! k = Some v →
  cache w !! k = Some v
  ∨ ∃ n hist, n ∈ new_coords ∧ n.2 = k
              ∧ v = outcome_text (reverse env hist (call_of n)).
Proof.
  revert w. induction new_coords as [|m rest IH]; intros w Hk; [by left|].
  simpl in Hk. apply IH in Hk as [Hk|(n & hist & Hn & <- & ->)].
  - simpl in Hk. destruct (decide (m.2 = k)) as [<-|Hne].
    + rewrite lookup_insert_eq in Hk. simplify_eq.
      right. eexists m, _. split; [by left|done].
    + rewrite lookup_insert_ne in Hk by done. by left.
  - right. exists n, hist. split; [by right|done].
Qed.

(** The store after a batch. *)

Lemma geocoded_cache new_coords w :
  cache (geocoded_world env new_coords w)
  = cache (fold_left (resolve_step env) new_coords
             (log [EvPrint (MsgGeocoding (length new_coords))] w)).
Proof.
  unfold geocoded_world, save_world. by destruct (cache_writable env).
Qed.

Lemma geocoded_calls new_coords w :
  service_calls (trace (geocoded_world env new_coords w))
  = service_calls (trace w) ++ (call_of <$> new_coords).
Proof.
  unfold geocoded_world, save_world.
  destruct (cache_writable env); simpl;
    rewrite !service_calls_app, resolved_trace, service_calls_app; simpl;
    rewrite service_calls_app, service_calls_reverse; simpl;
    by rewrite !app_nil_r.
Qed.

Lemma elem_of_uncached c coordinates n :
  n ∈ uncached c coordinates
  ↔ ∃ p, p ∈ coordinates ∧ n = (p.1, p.2, cache_key p.1 p.2)
         ∧ c !! cache_key p.1 p.2 = None.
Proof.
  unfold uncached. rewrite list_elem_of_filter, list_elem_of_fmap. split.
  - intros [Hc (p & -> & Hp)]. by exists p.
  - intros (p & Hp & -> & Hc). split; [done|by exists p].
Qed.

Lemma uncached_keys c coordinates k :
  k ∈ (snd <$> uncached c coordinates)
  ↔ c !! k = None ∧ ∃ p, p ∈ coordinates ∧ cache_key p.1 p.2 = k.
Proof.
  rewrite list_elem_of_fmap. split.
  - intros (n & -> & (p & Hp & -> & Hc)%elem_of_uncached). eauto.
  - intros (Hc & p & Hp & <-). exists (p.1, p.2, cache_key p.1 p.2).
    split; [done|]. apply elem_of_uncached. by exists p.
Qed.

Lemma batch_returns coordinates w :
  ∃ amap, (batch_geocode env coordinates w).1 = Returned amap.
Proof.
  rewrite batch_geocode_run. destruct (uncached _ _); cbn [fst snd]; eauto.
Qed.

Lemma batch_calls coordinates w :
  service_calls (trace (batch_geocode env coordinates w).2)
  = service_calls (trace w) ++ (call_of <$> uncached (cache w) coordinates).
Proof.
  rewrite batch_geocode_run.
  destruct (uncached _ _) as [|n new] eqn:E; cbn [fst snd].
  - by rewrite app_nil_r.
  - apply geocoded_calls.
Qed.

Lemma batch_preserves coordinates w k v :
  cache w !! k = Some v →
  cache (batch_geocode env coordinates w).2 !! k = Some v.
Proof.
  intros Hk. rewrite batch_geocode_run.
  destruct (uncached _ _) as [|n new] eqn:E; cbn [fst snd]; [done|].
  rewrite geocoded_cache, resolved_other; [done|].
  rewrite <- E. intros [Hnone _]%uncached_keys. congruence.
Qed.

Lemma batch_covers coordinates w p :
  p ∈ coordinates →
  is_Some (cache (batch_geocode env coordinates w).2 !! cache_key p.1 p.2).
Proof.
  intros Hp.
  destruct (cache w !! cache_key p.1 p.2) as [v|] eqn:Hc.
  { exists v. by apply batch_preserves. }
  assert (cache_key p.1 p.2 ∈ (snd <$> uncached (cache w) coordinates)) as Hk.
  { apply uncached_keys. eauto. }
  rewrite batch_geocode_run.
  destruct (uncached _ _) as [|n new] eqn:E; cbn [fst snd].
  - by apply elem_of_nil in Hk.
  - rewrite geocoded_cache. by apply resolved_covers.
Qed.

Lemma batch_origin coordinates w k v :
  cache (batch_geocode env coordinates w).2 !! k = Some v →
  cache w !! k = Some v
  ∨ (cache w !! k = None
     ∧ ∃ p hist, p ∈ coordinates ∧ cache_key p.1 p.2 = k
                 ∧ v = outcome_text (reverse env hist p)).
Proof.
  rewrite batch_geocode_run.
  destruct (uncached _ _) as [|n new] eqn:E; cbn [fst snd]; [by left|].
  rewrite geocoded_cache.
  intros [Hk|(n' & hist & Hn & <- & ->)]%resolved_origin; [by left|].
  rewrite <- E in Hn. apply elem_of_uncached in Hn as (p & Hp & -> & Hc).
  right. split; [done|]. exists p, hist. by destruct p.
Qed.

End Runs.

(** ** The orchestrator *)

Section MainRuns.
Variable env : environment.

Lemma log_nil w : log [] w = w.
Proof. destruct w. unfold log. simpl. by rewrite app_nil_r. Qed.

Lemma log_log es1 es2 w : log es2 (log es1 w) = log (es1 ++ es2) w.
Proof. unfold log. simpl. by rewrite app_assoc. Qed.

Lemma convert_row_run p w :
  convert_row p w
  = (Returned (row_of (cache w) p),
     log (option_list (skip_message p)) w).
Proof.
  unfold convert_row, row_of, skip_message, in_range.
  destruct (float_le (float_of_Z (-90)) p.1 && float_le p.1 (float_of_Z 90));
    destruct (float_le (float_of_Z (-180)) p.2 && float_le p.2 (float_of_Z 180));
    cbn [negb orb andb option_list]; try done.
  rewrite log_nil.
  destruct (mercator_projection _ _) as [x y]. cbn [fst snd].
  by destruct (inverse_mercator x y) as [rev_lat rev_lon].
Qed.

Lemma convert_rows_run rows w :
  convert_rows rows w
  = (Returned (omap (row_of (cache w)) rows),
     log (omap skip_message rows) w).
Proof.
  revert w. induction rows as [|p rows IH]; intros w.
  - simpl. by rewrite log_nil.
  - simpl convert_rows. rewrite bind_run, convert_row_run, bind_run, IH.
    rewrite log_log. unfold mret, M_ret. cbn [omap list_omap].
    change (cache (log ?es w)) with (cache w).
    by destruct (row_of (cache w) p), (skip_message p).
Qed.

Lemma load_cache_run f :
  load_cache (log (input_events env) (initial_world f)) = (Returned (), loaded_world env f).
Proof.
  unfold load_cache, loaded_world, initial_world, log. rewrite bind_run.
  destruct f; cbn; rewrite ?app_nil_r; done.
Qed.

Lemma export_run rows w :
  try_except
    (output_data ← convert_rows rows;
     emit (EvWriteCsv output_data);;
     print MsgCreatingMap;;
     centre ← create_optimized_map output_data;
     emit (EvSaveMap centre output_data);;
     print MsgOutputFiles;;
     emit EvOpenBrowser)
    (λ e, print (MsgError (exn_message e))) w
  = (Returned (), exported rows w).
Proof.
  unfold try_except, exported. rewrite bind_run, convert_rows_run.
  destruct (omap (row_of (cache w)) rows) as [|r out] eqn:E;
    unfold mbind, M_bind, mret, M_ret, print, emit, raise,
      create_optimized_map, log, map_centre; cbn;
    by rewrite <- !app_assoc.
Qed.

Lemma try_except_bind {A B} (m : M A) (k : A → M B) h w :
  try_except (m ≫= k) h w
  = match m w with
    | (Returned a, w') => try_except (k a) h w'
    | (Raised e, w') => h e w'
    end.
Proof. unfold try_except. rewrite bind_run. by destruct (m w) as [[a|e] w']. Qed.

Lemma main_body_run f :
  try_except (main_body env) (λ e, print (MsgError (exn_message e)))
    (initial_world f)
  = (Returned (), settled env f).
Proof.
  unfold main_body, settled, input_phase_fails.
  rewrite try_except_bind.
  assert (∀ w0, w0 = log (input_events env) (initial_world f) →
    try_except
      (load_cache;;
       coords ←
         match csv_read env with
         | CsvMissing =>
             raise (Exn "ValueError"
                      "Coordinates file not found. Please create 'coordinates.csv' or use interactive input")
         | CsvUnreadable e => raise e
         | CsvNoLatLon =>
             raise (Exn "ValueError" "Latitude/Longitude columns not found")
         | CsvRows rows => mret rows
         end;
       address_map ←
         (if wants_lookup env then batch_geocode env (unique_coords coords)
          else mret []);
       output_data ← convert_rows coords;
       emit (EvWriteCsv output_data);;
       print MsgCreatingMap;;
       centre ← create_optimized_map output_data;
       emit (EvSaveMap centre output_data);;
       print MsgOutputFiles;;
       emit EvOpenBrowser)
      (λ e, print (MsgError (exn_message e))) w0
    = (Returned (),
       match csv_read env with
       | CsvMissing =>
           log [EvPrint (MsgError
                  "Coordinates file not found. Please create 'coordinates.csv' or use interactive input")]
             (loaded_world env f)
       | CsvUnreadable e =>
           log [EvPrint (MsgError (exn_message e))] (loaded_world env f)
       | CsvNoLatLon =>
           log [EvPrint (MsgError "Latitude/Longitude columns not found")]
             (loaded_world env f)
       | CsvRows rows =>
           exported rows
             (if wants_lookup env
              then (batch_geocode env (unique_coords rows) (loaded_world env f)).2
              else loaded_world env f)
       end)) as Hrest.
  { intros w0 ->. rewrite try_except_bind, load_cache_run, try_except_bind.
    destruct (csv_read env) as [|e| |rows]; try done.
    unfold mret at 1, M_ret at 1. rewrite try_except_bind.
    destruct (wants_lookup env).
    - destruct (batch_returns env (unique_coords rows) (loaded_world env f))
        as [amap Hamap].
      destruct (batch_geocode env (unique_coords rows) (loaded_world env f))
        as [r w3]. simpl in Hamap. subst r. cbn [snd].
      apply export_run.
    - unfold mret at 1, M_ret at 1. apply export_run. }
  destruct (wants_new_coordinates env) eqn:Ew; cbn [andb].
  - destruct (entered_coordinates env) as [[|p l]|] eqn:En; cbn [andb].
    + apply Hrest. unfold input_events, log. by rewrite Ew, En.
    + destruct (save_to_csv_ok env) eqn:Es; cbn [negb].
      * apply Hrest. unfold input_events, log. by rewrite Ew, En.
      * done.
    + apply Hrest. unfold input_events, log. by rewrite Ew, En.
  - apply Hrest. unfold input_events. by rewrite Ew, log_nil.
Qed.

Lemma main_run f :
  main env (initial_world f) = (Returned (), finished env (settled env f)).
Proof.
  unfold main, try_finally. rewrite main_body_run, bind_run, save_cache_run.
  reflexivity.
Qed.

End MainRuns.

(** ** The geocoding pipeline *)

Section Pipeline.
Variable env : environment.

Lemma uncached_nil c coordinates :
  (∀ p, p ∈ coordinates → is_Some (c !! cache_key p.1 p.2)) →
  uncached c coordinates = [].
Proof.
  intros Hall. destruct (uncached c coordinates) as [|n new] eqn:E; [done|].
  assert (n ∈ uncached c coordinates) as Hn by (rewrite E; by left).
  apply elem_of_uncached in Hn as (p & Hp & _ & Hc).
  destruct (Hall p Hp) as [v Hv]. congruence.
Qed.

Lemma call_of_uncached c coordinates :
  (call_of <$> uncached c coordinates) `sublist_of` coordinates.
Proof.
  unfold uncached.
  induction coordinates as [|[lat lon] l IH]; [done|].
  rewrite fmap_cons. cbn [fst snd].
  destruct (decide (c !! cache_key lat lon = None)).
  - rewrite filter_cons_True by done. rewrite fmap_cons. by apply sublist_skip.
  - rewrite filter_cons_False by done. by apply sublist_cons.
Qed.

Lemma batch_mapping coordinates w p :
  uncached (cache w) coordinates ≠ [] →
  p ∈ coordinates →
  coord_eq (round_coord p) (round_coord p) = true →
  (∀ p', p' ∈ coordinates →
         coord_eq (round_coord p') (round_coord p) = true →
         cache_key p'.1 p'.2 = cache_key p.1 p.2) →
  ∃ amap,
    (batch_geocode env coordinates w).1 = Returned amap
    ∧ dict_get (round_coord p) amap
      = Some (default "Error"
                (cache (batch_geocode env coordinates w).2
                   !! cache_key p.1 p.2)).
Proof.
  intros Hnew Hp Hrefl Hsame. rewrite batch_geocode_run.
  destruct (uncached _ _) as [|n new] eqn:E; [done|]. cbn [fst snd].
  eexists. split; [done|].
  unfold dict_of_items. rewrite dict_get_fold. apply last_value_all.
  - intros kv (p' & -> & Hp')%list_elem_of_fmap Heq. cbn [fst snd] in *.
    by rewrite (Hsame p' Hp' Heq).
  - right. eexists. split; [apply list_elem_of_fmap; by exists p|done].
Qed.

(** C4, as amended.  When every input coordinate is already cached (or
    the list is empty) [batch_geocode] returns the empty mapping.  When at
    least one is not, the mapping has, under the rounded pair of each
    input coordinate [p], the entry of [p]'s key in the cache after the
    update: the address cached before the call, or the text of a
    resolution made in this call for that key, an error text when it
    failed.  This holds for [p] free of NaN and such that the input
    coordinates whose rounded pairs equal [p]'s have [p]'s key. *)
Theorem batch_geocode_mapping coordinates w q p :
  q ∈ coordinates → cache w !! cache_key q.1 q.2 = None →
  p ∈ coordinates →
  coord_eq (round_coord p) (round_coord p) = true →
  (∀ p', p' ∈ coordinates →
         coord_eq (round_coord p') (round_coord p) = true →
         cache_key p'.1 p'.2 = cache_key p.1 p.2) →
  let w' := (batch_geocode env coordinates w).2 in
  (∃ amap v,
     (batch_geocode env coordinates w).1 = Returned amap
     ∧ dict_get (round_coord p) amap = Some v
     ∧ cache w' !! cache_key p.1 p.2 = Some v
     ∧ (cache w !! cache_key p.1 p.2 = Some v
        ∨ (cache w !! cache_key p.1 p.2 = None
           ∧ ∃ p' hist, p' ∈ coordinates
               ∧ cache_key p'.1 p'.2 = cache_key p.1 p.2
               ∧ v = outcome_text (reverse env hist p'))))
  ∧ (∀ cached w0,
       (∀ p0, p0 ∈ cached → is_Some (cache w0 !! cache_key p0.1 p0.2)) →
       batch_geocode env cached w0 = (Returned [], w0)).
Proof.
  intros Hq Hqc Hp Hrefl Hsame w'. split.
  - assert (uncached (cache w) coordinates ≠ []) as Hnew.
    { intros E.
      assert ((q.1, q.2, cache_key q.1 q.2) ∈ uncached (cache w) coordinates)
        as Hin by (apply elem_of_uncached; by exists q).
      rewrite E in Hin. by apply elem_of_nil in Hin. }
    destruct (batch_mapping coordinates w p Hnew Hp Hrefl Hsame)
      as (amap & Hret & Hget).
    destruct (batch_covers env coordinates w p Hp) as [v Hv].
    fold w' in Hv, Hget. rewrite Hv in Hget. cbn [default] in Hget.
    exists amap, v. split_and!; [done..|].
    by apply batch_origin in Hv.
  - intros cached w0 Hall. rewrite batch_geocode_run.
    by rewrite uncached_nil.
Qed.

(** C6, as amended.  Whatever the service does, [batch_geocode] returns
    normally; it calls the service once for every uncached coordinate, in
    order, so a failure does not stop the later resolutions; when the
    resolution of a coordinate is done the cache holds the text of its
    outcome under its key: the address when it succeeded, ["Not found"]
    when there was no result, ["Error: ..."] when the call raised.  For a
    coordinate whose key no later uncached coordinate of the batch shares,
    the cache still holds that text at the end; and the returned mapping
    gives that text under the coordinate's rounded pair when, besides, the
    coordinate holds no NaN and every coordinate of the batch whose
    rounded pair equals ([==]) its rounded pair has its key. *)
Theorem batch_geocode_isolates_failures coordinates w i n :
  uncached (cache w) coordinates !! i = Some n →
  let new_coords := uncached (cache w) coordinates in
  let w' := (batch_geocode env coordinates w).2 in
  let outcome :=
    reverse env (service_calls (trace w) ++ (call_of <$> take i new_coords))
      (call_of n) in
  (∃ amap,
     (batch_geocode env coordinates w).1 = Returned amap
     ∧ ((∀ j n', i < j → new_coords !! j = Some n' → n'.2 ≠ n.2) →
        coord_eq (round_coord (call_of n)) (round_coord (call_of n)) = true →
        (∀ p', p' ∈ coordinates →
           coord_eq (round_coord p') (round_coord (call_of n)) = true →
           cache_key p'.1 p'.2 = n.2) →
        dict_get (round_coord (call_of n)) amap
        = Some (outcome_text outcome)))
  ∧ service_calls (trace w') = service_calls (trace w) ++ (call_of <$> new_coords)
  ∧ cache (resolve env (take (S i) new_coords)
             (log [EvPrint (MsgGeocoding (length new_coords))] w)).2 !! n.2
    = Some (outcome_text outcome)
  ∧ ((∀ j n', i < j → new_coords !! j = Some n' → n'.2 ≠ n.2) →
     cache w' !! n.2 = Some (outcome_text outcome)
     ∧ match outcome with
       | Located address => cache w' !! n.2 = Some address
       | NoLocation => cache w' !! n.2 = Some "Not found"
       | Failure e => cache w' !! n.2 = Some ("Error: " +:+ exn_message e)
       end).
Proof.
  intros Hi new_coords w' outcome. subst new_coords.
  set (new_coords := uncached (cache w) coordinates) in *.
  assert ((∀ j n', i < j → new_coords !! j = Some n' → n'.2 ≠ n.2) →
          cache w' !! n.2 = Some (outcome_text outcome)) as Hcache.
  { intros Hlast. unfold w'. rewrite batch_geocode_run. fold new_coords.
    destruct new_coords as [|m new] eqn:E; [done|].
    cbn [snd]. rewrite geocoded_cache.
    rewrite (resolved_value env _ _ i n Hi Hlast). cbn.
    by rewrite service_calls_app, app_nil_r. }
  split_and!.
  - assert (n ∈ new_coords) as Hn by (apply list_elem_of_lookup; eauto).
    pose proof Hn as (p & Hp & -> & Hc)%elem_of_uncached.
    assert (uncached (cache w) coordinates ≠ []) as Hnew.
    { intros E. unfold new_coords in Hn. rewrite E in Hn.
      by apply elem_of_nil in Hn. }
    destruct (batch_returns env coordinates w) as [amap Hret].
    exists amap. split; [done|]. intros Hlast Hrefl Hsame.
    replace (call_of (p.1, p.2, cache_key p.1 p.2)) with p in *
      by (by destruct p).
    destruct (batch_mapping coordinates w p Hnew Hp Hrefl Hsame)
      as (amap' & Hret' & Hget).
    rewrite Hret in Hret'. simplify_eq. rewrite Hget.
    fold w'. cbn [snd] in Hcache. by rewrite (Hcache Hlast).
  - apply batch_calls.
  - rewrite resolve_run. cbn [snd].
    assert (take (S i) new_coords !! i = Some n) as Hi'
      by (rewrite lookup_take_lt by lia; done).
    rewrite (resolved_value env _ _ i n Hi').
    + cbn. rewrite service_calls_app, app_nil_r.
      by rewrite take_take, Nat.min_l by lia.
    + intros j n' Hj Hn'. apply lookup_lt_Some in Hn'.
      rewrite length_take in Hn'. lia.
  - intros Hlast. split; [by apply Hcache|].
    rewrite (Hcache Hlast). by destruct outcome.
Qed.

(** Once a batch is done, the same batch finds every key cached. *)
Lemma batch_rerun (env' : environment) coordinates w w2 :
  cache w2 = cache (batch_geocode env coordinates w).2 →
  batch_geocode env' coordinates w2 = (Returned [], w2).
Proof.
  intros Hc. rewrite batch_geocode_run, uncached_nil; [done|].
  intros p Hp. rewrite Hc. by apply batch_covers.
Qed.

Lemma dom_resolved new_coords w k :
  is_Some (cache w !! k) →
  is_Some (cache (fold_left (resolve_step env) new_coords w) !! k).
Proof.
  intros Hk. destruct (decide (k ∈ (snd <$> new_coords))).
  - by apply resolved_covers.
  - by rewrite resolved_other.
Qed.

End Pipeline.

Section PipelineExamples.

Lemma batch_geocode_mapping_witness :
  let coordinates := [point 1 1; point 2 2; point 3 3] in
  let w := initial_world Absent in
  ∃ amap,
    (batch_geocode (sample_env true []) coordinates w).1 = Returned amap
    ∧ dict_get (round_coord (point 1 1)) amap = Some "Street 1.0000,1.0000".
Proof.
  intros coordinates w.
  destruct (batch_geocode_mapping (sample_env true []) coordinates w
              (point 1 1) (point 1 1))
    as [(amap & v & Hret & Hget & Hv & _) _].
  - apply list_elem_of_here.
  - reflexivity.
  - apply list_elem_of_here.
  - vm_compute. reflexivity.
  - intros p' Hp' Heq.
    repeat (apply elem_of_cons in Hp' as [->|Hp']);
      [reflexivity|vm_compute in Heq; discriminate..|].
    by apply elem_of_nil in Hp'.
  - exists amap. split; [exact Hret|].
    rewrite Hget. vm_compute in Hv. symmetry. exact Hv.
Defined.

(** C4 as stated fails: with its only coordinate cached, [batch_geocode]
    returns the empty mapping, which has no entry for it. *)
Lemma batch_geocode_all_cached_empty :
  let p := point 1 2 in
  let w := World {["1.0000,2.0000" := "Home"]} Absent [] in
  cache w !! cache_key p.1 p.2 = Some "Home"
  ∧ ¬ ∃ amap v,
        (batch_geocode (sample_env true []) [p] w).1 = Returned amap
        ∧ dict_get (round_coord p) amap = Some v.
Proof.
  intros p w. split; [vm_compute; reflexivity|].
  intros (amap & v & Hret & Hget).
  vm_compute in Hret. injection Hret as <-. discriminate Hget.
Qed.

Lemma batch_geocode_isolates_failures_witness :
  let coordinates := [point 1 1; point 2 2; point 3 3; point 4 4] in
  let w' :=
    (batch_geocode (sample_env true []) coordinates (initial_world Absent)).2 in
  cache w' !! "2.0000,2.0000" = Some "Error: Service timed out"
  ∧ service_calls (trace w') = coordinates.
Proof.
  intros coordinates w'.
  destruct (batch_geocode_isolates_failures (sample_env true []) coordinates
              (initial_world Absent) 1
              (float_of_Z 2, float_of_Z 2, "2.0000,2.0000"))
    as (_ & Hcalls & _ & Hcache).
  - vm_compute. reflexivity.
  - split; [|unfold w'; rewrite Hcalls; vm_compute; reflexivity].
    apply Hcache. intros j n' Hj Hn'.
    destruct j as [|[|[|[|j]]]]; try lia; vm_compute in Hn'; simplify_eq;
      vm_compute; discriminate.
Defined.

(** C6 as stated fails on a batch with two coordinates of one key:
    [(1.00001, 1)] is resolved to an address, [(1.00002, 1)], which has
    the same key, fails afterwards, and the mapping returned gives the
    error text, not the address, for the first. *)
Lemma batch_geocode_duplicate_overwrites :
  let a := (float_literal false 100001 5, float_of_Z 1) in
  let b := (float_literal false 100002 5, float_of_Z 1) in
  let r := batch_geocode flaky_env [a; b] (initial_world Absent) in
  reverse flaky_env [] a = Located "Main St"
  ∧ service_calls (trace r.2) = [a; b]
  ∧ cache_key a.1 a.2 = cache_key b.1 b.2
  ∧ (∃ amap, r.1 = Returned amap
             ∧ dict_get (round_coord a) amap = Some "Error: Service timed out")
  ∧ cache r.2 !! cache_key a.1 a.2 = Some "Error: Service timed out".
Proof.
  intros a b r. split_and!; try (vm_compute; reflexivity).
  eexists. split; vm_compute; reflexivity.
Qed.

End PipelineExamples.

(** ** Whole runs *)

Section WholeRuns.
Variable env : environment.

Lemma quiet_written_rows es : Forall quiet es → written_rows es = [].
Proof.
  induction 1 as [|e es He _ IH]; [done|].
  destruct e as [[]| | | | |]; try done; exact IH.
Qed.



Lemma quiet_skip_messages rows : Forall quiet (omap skip_message rows).
Proof.
  induction rows as [|p rows IH]; simpl; [done|].
  unfold skip_message at 1. destruct (in_range p.1 p.2); [done|].
  by constructor.
Qed.

Lemma service_calls_skip_messages rows :
  service_calls (omap skip_message rows) = [].
Proof.
  induction rows as [|p rows IH]; simpl; [done|].
  unfold skip_message at 1. by destruct (in_range p.1 p.2).
Qed.

Lemma quiet_reverse (l : list (float * float * string)) :
  Forall quiet (EvReverse ∘ call_of <$> l).
Proof. induction l; simpl; by constructor. Qed.

Lemma loaded_trace_quiet f : Forall quiet (trace (loaded_world env f)).
Proof.
  unfold loaded_world, input_events, load_events. simpl.
  apply Forall_app. split.
  - destruct (wants_new_coordinates env); [|done].
    destruct (entered_coordinates env) as [[|??]|]; by repeat constructor.
  - destruct f; by repeat constructor.
Qed.

Lemma geocoded_trace new_coords w :
  trace (geocoded_world env new_coords w)
  = trace w
    ++ [EvPrint (MsgGeocoding (length new_coords))]
    ++ (EvReverse ∘ call_of <$> new_coords)
    ++ [if cache_writable env
        then EvDumpCache (cache (geocoded_world env new_coords w))
        else EvPrint MsgCacheSaveFailed;
        EvPrint MsgGeocodingCompleted].
Proof.
  rewrite geocoded_cache. unfold geocoded_world, save_world, log.
  destruct (cache_writable env); cbn [trace cache cache_file];
    rewrite resolved_trace; cbn [trace]; by rewrite <- !app_assoc.
Qed.

Lemma batch_trace coordinates w :
  ∃ es, trace (batch_geocode env coordinates w).2 = trace w ++ es
        ∧ Forall quiet es.
Proof.
  rewrite batch_geocode_run.
  destruct (uncached _ _) as [|n new] eqn:E; cbn [fst snd].
  { exists []. by rewrite app_nil_r. }
  rewrite geocoded_trace. eexists. split; [reflexivity|].
  apply Forall_cons. split; [done|]. apply Forall_app. split.
  - apply quiet_reverse.
  - destruct (cache_writable env); by repeat constructor.
Qed.

Lemma finished_trace w :
  trace (finished env w)
  = trace w
    ++ [if cache_writable env then EvDumpCache (cache w)
        else EvPrint MsgCacheSaveFailed;
        EvPrint MsgProcessCompleted].
Proof.
  unfold finished, save_world.
  destruct (cache_writable env); cbn; by rewrite <- app_assoc.
Qed.

Lemma finished_cache w : cache (finished env w) = cache w.
Proof. unfold finished, save_world. by destruct (cache_writable env). Qed.

Lemma finished_cache_file w :
  cache_file (finished env w)
  = if cache_writable env then Holds (cache w) else cache_file w.
Proof. unfold finished, save_world. by destruct (cache_writable env). Qed.

Lemma exported_cache rows w : cache (exported rows w) = cache w.
Proof. unfold exported. by destruct (omap _ rows). Qed.

Lemma exported_trace rows w :
  trace (exported rows w)
  = trace w ++ omap skip_message rows
    ++ [EvWriteCsv (omap (row_of (cache w)) rows); EvPrint MsgCreatingMap]
    ++ match omap (row_of (cache w)) rows with
       | [] => [EvPrint (MsgError "division by zero")]
       | (_ :: _) as out =>
           [EvSaveMap (map_centre out) out; EvPrint MsgOutputFiles;
            EvOpenBrowser]
       end.
Proof.
  unfold exported, log. destruct (omap (row_of _) rows); cbn [trace];
    rewrite <- !app_assoc; reflexivity.
Qed.

Lemma settled_rows f rows :
  csv_read env = CsvRows rows → input_phase_fails env = false →
  settled env f = exported rows (conversion_world env f rows).
Proof. intros Hcsv Hin. unfold settled. by rewrite Hin, Hcsv. Qed.

Lemma conversion_trace f rows :
  ∃ es, trace (conversion_world env f rows) = es ∧ Forall quiet es.
Proof.
  unfold conversion_world. destruct (wants_lookup env).
  - destruct (batch_trace (unique_coords rows) (loaded_world env f))
      as (es & -> & Hes).
    eexists. split; [done|]. apply Forall_app. split; [|done].
    apply loaded_trace_quiet.
  - eexists. split; [done|]. apply loaded_trace_quiet.
Qed.

Lemma main_rows_written f rows :
  csv_read env = CsvRows rows → input_phase_fails env = false →
  written_rows (trace (main env (initial_world f)).2)
  = [omap (row_of (cache (conversion_world env f rows))) rows].
Proof.
  intros Hcsv Hin. rewrite main_run. cbn [snd].
  rewrite finished_trace, (settled_rows f rows), exported_trace by done.
  destruct (conversion_trace f rows) as (es & -> & Hes).
  unfold written_rows. rewrite !omap_app.
  fold (written_rows es). rewrite quiet_written_rows by done.
  fold (written_rows (omap skip_message rows)).
  rewrite quiet_written_rows by apply quiet_skip_messages.
  destruct (omap (row_of _) rows), (cache_writable env); done.
Qed.

Lemma row_of_address c p r :
  row_of c p = Some r →
  in_range p.1 p.2 = true ∧ rec_lat r = p.1 ∧ rec_lon r = p.2
  ∧ rec_address r
    = default "Address lookup disabled" (c !! cache_key p.1 p.2).
Proof.
  unfold row_of. destruct (in_range p.1 p.2); [|done].
  intros [= <-]. done.
Qed.

(** After the lookup phase the cache has the key of every row whose
    representative in the deduplicated set has that key. *)
Lemma lookup_covers w rows p :
  Forall valid_coord rows → p ∈ rows →
  (∀ p', p' ∈ rows → coord_eq (round_coord p') (round_coord p) = true →
         cache_key p'.1 p'.2 = cache_key p.1 p.2) →
  is_Some (cache (batch_geocode env (unique_coords rows) w).2
             !! cache_key p.1 p.2).
Proof.
  intros Hvalid Hp Hsame.
  destruct (set_of_list_covers (round_coord <$> rows) [] (round_coord p))
    as (u & Hu & Hrep); [apply list_elem_of_fmap; by exists p|].
  pose proof (batch_covers env (unique_coords rows) w u Hu) as Hcov.
  assert (cache_key u.1 u.2 = cache_key p.1 p.2) as <-; [|done].
  apply set_of_list_elem in Hu as [Hu|Hu]; [by apply elem_of_nil in Hu|].
  apply list_elem_of_fmap in Hu as (p' & -> & Hp').
  rewrite Forall_forall in Hvalid.
  destruct (Hvalid p' Hp') as [V1 V2]. cbn [round_coord fst snd].
  rewrite cache_key_round by done.
  destruct Hrep as [Heq|Heq]; [|by apply Hsame].
  injection Heq as H1 H2. unfold cache_key. by rewrite H1, H2.
Qed.

End WholeRuns.

Section Claims.
Variable env : environment.


(** C5, as amended.  A run that reads rows writes one record for each row
    in range, in order, and the address of a record is the entry of the
    row's rounded key in the cache at that time, ["Address lookup
    disabled"] when the cache has none.  Without lookup that cache is the
    one loaded from the cache file, so a row whose key an earlier run
    cached gets the cached address.  With lookup the cache has an entry
    for every row whose equal-rounding rows share its key: the address
    the file held, or the text of a resolution of this run. *)
Theorem main_addresses f rows :
  csv_read env = CsvRows rows → input_phase_fails env = false →
  let w' := (main env (initial_world f)).2 in
  ∃ c,
    written_rows (trace w') = [omap (row_of c) rows]
    ∧ (∀ p r, row_of c p = Some r →
         in_range p.1 p.2 = true ∧ rec_lat r = p.1 ∧ rec_lon r = p.2
         ∧ rec_address r
           = default "Address lookup disabled" (c !! cache_key p.1 p.2))
    ∧ (∀ p, in_range p.1 p.2 = true → is_Some (row_of c p))
    ∧ (wants_lookup env = false → c = loaded_cache f)
    ∧ (wants_lookup env = true → Forall valid_coord rows →
       ∀ p, p ∈ rows →
         (∀ p', p' ∈ rows →
            coord_eq (round_coord p') (round_coord p) = true →
            cache_key p'.1 p'.2 = cache_key p.1 p.2) →
         ∃ v, c !! cache_key p.1 p.2 = Some v
              ∧ (loaded_cache f !! cache_key p.1 p.2 = Some v
                 ∨ (loaded_cache f !! cache_key p.1 p.2 = None
                    ∧ ∃ u hist, cache_key u.1 u.2 = cache_key p.1 p.2
                        ∧ v = outcome_text (reverse env hist u)))).
Proof.
  intros Hcsv Hin w'. exists (cache (conversion_world env f rows)).
  split_and!.
  - by apply main_rows_written.
  - intros p r. apply row_of_address.
  - intros p Hp. unfold row_of. rewrite Hp. eauto.
  - intros Hl. unfold conversion_world. by rewrite Hl.
  - intros Hl Hvalid p Hp Hsame. unfold conversion_world. rewrite Hl.
    destruct (lookup_covers env (loaded_world env f) rows p Hvalid Hp Hsame)
      as [v Hv].
    exists v. split; [done|].
    apply batch_origin in Hv as [Hv|(Hnone & u & hist & _ & Hk & ->)].
    + by left.
    + right. split; [done|]. by exists u, hist.
Qed.


(** C9.  Within a run no operation removes an entry of the cache: each
    resolution keeps every key (it may overwrite the text of a key
    resolved earlier in the same batch), a batch leaves the entries it
    found as they were, and [save_cache] writes the whole cache to the
    file.  A run of [main] that reaches [load_cache] therefore ends with
    every entry the cache file held, in memory and, when the file can be
    written, in the file.  A run that fails before [load_cache] does not:
    its [finally] clause saves the empty cache of the fresh process, and a
    file that held an address holds the empty mapping afterwards. *)
Theorem cache_grows_unless_run_fails_early :
  (∀ env new_coords w,
     dom (cache w) ⊆ dom (cache (resolve env new_coords w).2))
  ∧ (∀ env coordinates w,
       cache w ⊆ cache (batch_geocode env coordinates w).2)
  ∧ (∀ env w,
       cache (save_cache env w).2 = cache w
       ∧ cache_file (save_cache env w).2
         = if cache_writable env then Holds (cache w) else cache_file w)
  ∧ (∀ env f,
       input_phase_fails env = false →
       let w' := (main env (initial_world f)).2 in
       loaded_cache f ⊆ cache w'
       ∧ (cache_writable env = true →
          cache_file w' = Holds (cache w')
          ∧ loaded_cache f ⊆ loaded_cache (cache_file w')))
  ∧ (let f := Holds {["40.0000,-74.0000" := "New York"]} in
     let w' := (main unsaved_env (initial_world f)).2 in
     input_phase_fails unsaved_env = true
     ∧ cache_writable unsaved_env = true
     ∧ loaded_cache f !! "40.0000,-74.0000" = Some "New York"
     ∧ cache_file w' = Holds ∅
     ∧ ¬ loaded_cache f ⊆ loaded_cache (cache_file w')).
Proof.
  split_and!.
  - intros env0 new_coords w. rewrite resolve_run. cbn [snd].
    intros k. rewrite !elem_of_dom. apply dom_resolved.
  - intros env0 coordinates w. apply map_subseteq_spec. intros k v.
    apply batch_preserves.
  - intros env0 w. rewrite save_cache_run. cbn [snd]. unfold save_world.
    by destruct (cache_writable env0).
  - intros env0 f Hin w'.
    assert (loaded_cache f ⊆ cache w') as Hkeep.
    { unfold w'. rewrite main_run. cbn [snd]. rewrite finished_cache.
      unfold settled. rewrite Hin.
      destruct (csv_read env0) as [| | |rows]; try done.
      rewrite exported_cache. destruct (wants_lookup env0); [|done].
      apply map_subseteq_spec. intros k v.
      apply (batch_preserves env0 (unique_coords rows) (loaded_world env0 f)). }
    split; [exact Hkeep|]. intros Hw.
    assert (cache_file w' = Holds (cache w')) as Hfile.
    { unfold w'. rewrite main_run. cbn [snd].
      by rewrite finished_cache_file, finished_cache, Hw. }
    split; [exact Hfile|]. by rewrite Hfile.
  - intros f w'.
    assert (cache_file w' = Holds ∅) as Hfile by (vm_compute; reflexivity).
    split_and!; [reflexivity..|exact Hfile|].
    rewrite Hfile. intros Hsub.
    assert (loaded_cache f !! "40.0000,-74.0000" = Some "New York") as Hin
      by reflexivity.
    eapply lookup_weaken in Hin; [|exact Hsub].
    cbn [loaded_cache] in Hin. by rewrite lookup_empty in Hin.
Qed.

Lemma loaded_calls f : service_calls (trace (loaded_world env f)) = [].
Proof.
  unfold loaded_world, input_events, load_events. cbn [trace].
  rewrite service_calls_app.
  destruct (wants_new_coordinates env), f; try done;
    by destruct (entered_coordinates env) as [[|??]|].
Qed.

Lemma exported_calls rows w :
  service_calls (trace (exported rows w)) = service_calls (trace w).
Proof.
  rewrite exported_trace, !service_calls_app, service_calls_skip_messages.
  destruct (omap (row_of _) rows); cbn; by rewrite app_nil_r.
Qed.

(** The rerun of C7 for whole runs: when a run with lookup has saved its
    cache, a later run on the same rows, started from the cache file the
    first one left, makes no call to the service. *)
Lemma main_rerun_makes_no_call (env1 : environment) f rows :
  csv_read env1 = CsvRows rows → input_phase_fails env1 = false →
  wants_lookup env1 = true → cache_writable env1 = true →
  csv_read env = CsvRows rows →
  let w1 := (main env1 (initial_world f)).2 in
  service_calls (trace (main env (initial_world (cache_file w1))).2) = [].
Proof.
  intros Hcsv1 Hin1 Hl1 Hw1 Hcsv w1.
  assert (cache_file w1
          = Holds (cache (batch_geocode env1 (unique_coords rows)
                            (loaded_world env1 f)).2)) as ->.
  { unfold w1. rewrite main_run. cbn [snd].
    rewrite finished_cache_file, Hw1, (settled_rows env1 f rows) by done.
    rewrite exported_cache. unfold conversion_world. by rewrite Hl1. }
  set (f1 := Holds _).
  rewrite main_run. cbn [snd]. rewrite finished_trace, service_calls_app.
  assert (service_calls (trace (settled env f1)) = []) as ->.
  { unfold settled. destruct (input_phase_fails env); [done|].
    rewrite Hcsv, exported_calls.
    destruct (wants_lookup env); [|apply loaded_calls].
    rewrite (batch_rerun env1 env (unique_coords rows) (loaded_world env1 f)
               (loaded_world env f1) eq_refl).
    apply loaded_calls. }
  by destruct (cache_writable env).
Qed.

(** C10.  With lookup enabled, a row out of range still has its
    representative in the deduplicated set given to [batch_geocode]; when
    the key of the representative is not in the loaded cache the service
    is called for it; no record is written for the row; and the line that
    reports the row as skipped comes after every call to the service. *)
Theorem invalid_rows_are_geocoded f rows p :
  csv_read env = CsvRows rows → input_phase_fails env = false →
  wants_lookup env = true → p ∈ rows → in_range p.1 p.2 = false →
  let w' := (main env (initial_world f)).2 in
  (∃ u, u ∈ unique_coords rows
        ∧ (u = round_coord p ∨ coord_eq u (round_coord p) = true)
        ∧ (loaded_cache f !! cache_key u.1 u.2 = None →
           u ∈ service_calls (trace w')))
  ∧ (∀ out r, out ∈ written_rows (trace w') → r ∈ out →
       (rec_lat r, rec_lon r) ≠ p)
  ∧ ∃ t1 t2,
      trace w' = t1 ++ EvPrint (MsgSkippingInvalid p.1 p.2) :: t2
      ∧ service_calls t2 = [].
Proof.
  intros Hcsv Hin Hl Hp Hrange w'.
  assert (∃ rest,
            trace w'
            = trace (batch_geocode env (unique_coords rows)
                       (loaded_world env f)).2
              ++ omap skip_message rows ++ rest
            ∧ service_calls rest = []) as (rest & Htrace & Hrest).
  { unfold w'. rewrite main_run. cbn [snd]. rewrite finished_trace.
    rewrite (settled_rows env f rows), exported_trace by done.
    unfold conversion_world. rewrite Hl.
    eexists. split; [by rewrite <- !app_assoc|].
    by destruct (omap (row_of _) rows), (cache_writable env). }
  split_and!.
  - destruct (set_of_list_covers (round_coord <$> rows) [] (round_coord p))
      as (u & Hu & Hrep); [apply list_elem_of_fmap; by exists p|].
    exists u. split_and!; [done..|].
    intros Hnone. rewrite Htrace, service_calls_app, batch_calls.
    apply elem_of_app. left. apply elem_of_app. right.
    apply list_elem_of_fmap. exists (u.1, u.2, cache_key u.1 u.2).
    split; [by destruct u|].
    apply elem_of_uncached. exists u. split; [done|]. split; [done|].
    unfold loaded_world. done.
  - intros out r Hout Hr. unfold w' in Hout.
    rewrite (main_rows_written env f rows) in Hout by done.
    apply list_elem_of_singleton in Hout as ->.
    apply list_elem_of_omap in Hr as (p' & Hp' & Hrow).
    apply row_of_address in Hrow as (Hr1 & Hr2 & Hr3 & _).
    intros Heq. rewrite Hr2, Hr3 in Heq.
    assert (p' = p) as -> by (destruct p', p; simplify_eq/=; done).
    congruence.
  - assert (EvPrint (MsgSkippingInvalid p.1 p.2) ∈ omap skip_message rows)
      as Hskip.
    { apply list_elem_of_omap. exists p. split; [done|].
      unfold skip_message. by rewrite Hrange. }
    apply list_elem_of_split in Hskip as (l1 & l2 & Hsplit).
    exists (trace (batch_geocode env (unique_coords rows)
                     (loaded_world env f)).2 ++ l1), (l2 ++ rest).
    split.
    + rewrite Htrace, Hsplit. by rewrite <- !app_assoc.
    + pose proof (service_calls_skip_messages rows) as Hs.
      rewrite Hsplit, service_calls_app in Hs.
      apply app_eq_nil in Hs as [_ Hs]. change (service_calls l2 = []) in Hs.
      by rewrite service_calls_app, Hs, Hrest.
Qed.

End Claims.

Section RunExamples.

Lemma sample_rows_valid : Forall valid_coord [point 1 1; point 95 1].
Proof. repeat constructor. Qed.

Lemma sample_rows_keys p' :
  p' ∈ [point 1 1; point 95 1] →
  coord_eq (round_coord p') (round_coord (point 1 1)) = true →
  cache_key p'.1 p'.2 = cache_key (point 1 1).1 (point 1 1).2.
Proof.
  intros Hp' Heq.
  repeat (apply elem_of_cons in Hp' as [->|Hp']);
    [reflexivity|vm_compute in Heq; discriminate Heq|].
  exfalso. exact (proj1 (elem_of_nil _) Hp').
Qed.

Lemma main_addresses_witness :
  let rows := [point 1 1; point 95 1] in
  let w' := (main (sample_env true rows) (initial_world Absent)).2 in
  ∃ c, written_rows (trace w') = [omap (row_of c) rows]
       ∧ is_Some (c !! cache_key (point 1 1).1 (point 1 1).2).
Proof.
  intros rows w'.
  destruct (main_addresses (sample_env true rows) Absent rows eq_refl eq_refl)
    as (c & Hrows & _ & _ & _ & Hlookup).
  exists c. split; [exact Hrows|].
  destruct (Hlookup eq_refl sample_rows_valid (point 1 1)
              (list_elem_of_here _ _) sample_rows_keys) as (v & Hv & _).
  exists v. exact Hv.
Defined.

(** C5 as stated fails: without lookup, a row whose key is in the cache
    file gets the cached address, not the placeholder. *)
Lemma main_without_lookup_uses_cache :
  let rows := [point 40 (-74)] in
  let f := Holds {["40.0000,-74.0000" := "New York"]} in
  let w' := (main (sample_env false rows) (initial_world f)).2 in
  wants_lookup (sample_env false rows) = false
  ∧ in_range (float_of_Z 40) (float_of_Z (-74)) = true
  ∧ map (map rec_address) (written_rows (trace w')) = [["New York"]].
Proof. vm_compute. repeat split. Qed.


Lemma invalid_rows_are_geocoded_witness :
  let rows := [point 95 10] in
  let w' := (main (sample_env true rows) (initial_world Absent)).2 in
  in_range (float_of_Z 95) (float_of_Z 10) = false
  ∧ ∃ u, u ∈ service_calls (trace w')
         ∧ (u = round_coord (point 95 10)
            ∨ coord_eq u (round_coord (point 95 10)) = true).
Proof.
  intros rows w'. split; [vm_compute; reflexivity|].
  destruct (invalid_rows_are_geocoded (sample_env true rows) Absent rows
              (point 95 10) eq_refl eq_refl eq_refl)
    as ((u & _ & Hrep & Hcall) & _).
  - apply list_elem_of_here.
  - vm_compute. reflexivity.
  - exists u. split; [|exact Hrep]. apply Hcall. apply lookup_empty.
Defined.

(** The consequence of the signed zero for a whole run: with lookup
    enabled, the second of two rows that round to [-0.0] and [0.0] is
    written with the placeholder, its key never having been resolved. *)
Example signed_zero_row_gets_placeholder :
  let rows := [(float_literal true 1 5, float_of_Z 2);
               (float_literal false 1 5, float_of_Z 2)] in
  let w' := (main (sample_env true rows) (initial_world Absent)).2 in
  service_calls (trace w') = [(S754_zero true, float_of_Z 2)]
  ∧ map (map rec_address) (written_rows (trace w'))
    = [["Street -0.0000,2.0000"; "Address lookup disabled"]].
Proof. vm_compute. repeat split. Qed.

(** A run that fails before [load_cache] still saves the cache, which is
    then the empty dictionary of the process start: the entries the cache
    file held are gone. *)
Example early_failure_empties_cache_file :
  let f := Holds {["40.0000,-74.0000" := "New York"]} in
  let w' := (main unsaved_env (initial_world f)).2 in
  error_messages (trace w') = ["Failed to save coordinates"]
  ∧ cache_file w' = Holds ∅.
Proof. vm_compute. repeat split. Qed.

End RunExamples.

(** * Further properties *)

(** ** Rounded values are floats; comparisons are those of the values *)

Section FloatOrder.
Local Open Scope Z_scope.

Lemma digits2_pos_normal m :
  2 ^ 52 ≤ Z.pos m < 2 ^ 53 → Z.pos (digits2_pos m) = 53.
Proof.
  intros [Hlo Hhi]. pose proof (digits2_pos_spec m) as [Hd1 Hd2].
  set (d := Z.pos (digits2_pos m)) in *.
  assert (0 < d) by (unfold d; lia).
  assert (d - 1 < 53) by (apply pow2_gt_inv; lia).
  assert (52 < d) by (apply pow2_gt_inv; lia).
  lia.
Qed.

Lemma float_valid_normal s m e :
  2 ^ 52 ≤ Z.pos m < 2 ^ 53 → -1074 ≤ e ≤ 971 →
  float_valid (S754_finite s m e) = true.
Proof.
  intros Hm He.
  unfold float_valid, valid_binary, bounded, canonical_mantissa, fexp, emin.
  rewrite (digits2_pos_normal m Hm).
  apply andb_true_iff. split; [apply Z.eqb_eq|apply Z.leb_le]; lia.
Qed.

(** The float nearest to a four-place decimal below [2^39] is a normal
    binary64 value. *)
Lemma nearest_float_small s k :
  0 < k ≤ 2 ^ 39 * 10000 →
  ∃ m e, nearest_float s k 10000 = S754_finite s m e
         ∧ 2 ^ 52 ≤ Z.pos m < 2 ^ 53 ∧ -1074 ≤ e ≤ 971.
Proof.
  intros [Hk0 Hk].
  destruct (Z.eq_dec k (2 ^ 39 * 10000)) as [->|Hne].
  { eexists _, _. split; [vm_compute; reflexivity|]. by vm_compute. }
  assert (k < 2 ^ 39 * 10000) as Hlt by lia. clear Hk Hne.
  unfold nearest_float.
  destruct (Z.eqb_spec k 0) as [|_]; [lia|].
  set (lq := floor_log2_ratio k 10000).
  assert (-14 ≤ lq ≤ 52) as Hlq.
  { unfold lq, floor_log2_ratio. change (Z.log2 10000) with 13.
    pose proof (Z.log2_nonneg k).
    assert (Z.log2 k < 53).
    { apply Z.log2_lt_pow2; lia. }
    repeat case_match; lia. }
  pose proof (floor_log2_ratio_spec k 10000 52 Hk0 ltac:(lia) ltac:(lia)
                ltac:(fold lq; lia)) as Hspec.
  fold lq in Hspec.
  rewrite Z.max_l by lia.
  set (t := 52 - lq) in *.
  replace (lq - 52) with (- t) by lia.
  replace (- - t) with t by lia.
  pose proof (pow2_pos t ltac:(lia)) as HD.
  assert (13 < t) as Ht.
  { apply pow2_gt_inv; [lia..|]. change (2 ^ 13) with 8192.
    change (2 ^ 52) with 4503599627370496 in Hspec.
    change (2 ^ 39) with 549755813888 in Hlt. nia. }
  destruct (Z.ltb_spec (- t) 0) as [_|]; [|lia].
  pose proof (rne_div_error (k * 2 ^ t) 10000 ltac:(lia)) as Herr.
  set (m0 := rne_div (k * 2 ^ t) 10000) in *.
  change (2 ^ 52) with 4503599627370496 in *.
  change (2 ^ (52 + 1)) with 9007199254740992 in *.
  change (2 ^ 53) with 9007199254740992 in *.
  assert (4503599627370496 ≤ m0 ≤ 9007199254740992) as Hm0 by lia.
  destruct (Z.eqb_spec m0 9007199254740992) as [Hc|Hc].
  - destruct (Z.eqb_spec 4503599627370496 0) as [|_]; [lia|].
    destruct (Z.ltb_spec 971 (- t + 1)) as [|_]; [lia|].
    eexists _, _. split; [reflexivity|].
    change (Z.pos (Z.to_pos 4503599627370496)) with 4503599627370496. lia.
  - destruct (Z.eqb_spec m0 0) as [|_]; [lia|].
    destruct (Z.ltb_spec 971 (- t)) as [|_]; [lia|].
    eexists _, _. split; [reflexivity|].
    rewrite Z2Pos.id by lia. lia.
Qed.

Lemma round4_valid x : float_valid x = true → float_valid (round4 x) = true.
Proof.
  destruct x as [s|s| |s m e]; try done. intros Hv.
  assert (Z.pos m < 2 ^ 53 ∧ e ≤ -14
          ∨ 2 ^ 52 ≤ Z.pos m < 2 ^ 53 ∧ -13 ≤ e ≤ 971) as [[Hm He]|[Hm He]].
  { destruct (float_valid_finite s m e Hv) as [[??]|[??]]; [|left; lia].
    destruct (Z.le_gt_cases e (-14)); [left|right]; lia. }
  - pose proof (decimal4_small m e Hm He) as Hk.
    pose proof (decimal4_nonneg m e) as Hk0.
    destruct (Z.eq_dec (decimal4 m e) 0) as [Hz|Hz].
    + unfold round4. rewrite Hz. reflexivity.
    + destruct (nearest_float_small s (decimal4 m e)) as (m' & e' & Hr & Hm' & He');
        [lia|].
      unfold round4. rewrite Hr. by apply float_valid_normal.
  - by rewrite round4_large.
Qed.

(** X6. [round(x, 4)] of a binary64 value is a binary64 value of the same
    sign, a number exactly when [x] is one, and rounding it again changes
    nothing: the rounded tuples of the deduplication are fixed points of
    the rounding the cache key applies. *)
Theorem round4_closed x :
  float_valid x = true →
  float_valid (round4 x) = true
  ∧ float_sign (round4 x) = float_sign x
  ∧ float_is_number (round4 x) = float_is_number x
  ∧ round4 (round4 x) = round4 x.
Proof.
  intros Hv. split; [by apply round4_valid|].
  split_and!; [| |by apply round4_idempotent].
  - destruct x as [s|s| |s m e]; try done.
    by destruct (round4_decimal s m e Hv) as [[_ ->]|(m' & e' & -> & _)].
  - destruct x as [s|s| |s m e]; try done.
    by destruct (round4_decimal s m e Hv) as [[_ ->]|(m' & e' & -> & _)].
Qed.

Lemma round4_closed_witness :
  let x := float_literal true 123456789 7 in
  float_valid (round4 x) = true ∧ float_sign (round4 x) = true
  ∧ round4 (round4 x) = round4 x.
Proof.
  intros x.
  destruct (round4_closed x) as (H1 & H2 & _ & H4); [reflexivity|].
  split; [exact H1|]. split; [exact H2|exact H4].
Defined.

Lemma scaled_order s1 m1 e1 s2 m2 e2 :
  float_valid (S754_finite s1 m1 e1) = true →
  float_valid (S754_finite s2 m2 e2) = true →
  e1 < e2 →
  Z.pos m1 * 2 ^ (e1 + 1074) < Z.pos m2 * 2 ^ (e2 + 1074).
Proof.
  intros H1 H2 He.
  assert (Z.pos m1 < 2 ^ 53 ∧ -1074 ≤ e1) as [Hm1 He1].
  { destruct (float_valid_finite _ _ _ H1) as [[??]|[??]]; [lia|].
    change (2 ^ 52) with 4503599627370496 in *.
    change (2 ^ 53) with 9007199254740992. lia. }
  assert (2 ^ 52 ≤ Z.pos m2) as Hm2.
  { destruct (float_valid_finite _ _ _ H2) as [[??]|[??]]; lia. }
  change (2 ^ 52) with 4503599627370496 in *.
  change (2 ^ 53) with 9007199254740992 in *.
  replace (e2 + 1074) with ((e1 + 1074) + (e2 - e1)) by lia.
  rewrite (pow2_split (e1 + 1074) (e2 - e1)) by lia.
  pose proof (pow2_pos (e1 + 1074) ltac:(lia)) as HA.
  assert (2 ≤ 2 ^ (e2 - e1)) as HD.
  { change 2 with (2 ^ 1) at 1. apply Z.pow_le_mono_r; lia. }
  set (A := 2 ^ (e1 + 1074)) in *. set (D := 2 ^ (e2 - e1)) in *.
  assert (Z.pos m1 * A < 9007199254740992 * A) as L1
    by (apply Z.mul_lt_mono_pos_r; lia).
  assert (0 < A * D) as HAD by (apply Z.mul_pos_pos; lia).
  assert (A * 2 ≤ A * D) as L0 by (apply Z.mul_le_mono_nonneg_l; lia).
  assert (4503599627370496 * (A * D) ≤ Z.pos m2 * (A * D)) as L2
    by (apply Z.mul_le_mono_nonneg_r; lia).
  lia.
Qed.

Lemma scaled_pos m e : -1074 ≤ e → 0 < Z.pos m * 2 ^ (e + 1074).
Proof. intros. pose proof (pow2_pos (e + 1074) ltac:(lia)). nia. Qed.

Lemma float_valid_exponent s m e :
  float_valid (S754_finite s m e) = true → -1074 ≤ e.
Proof. intros Hv. destruct (float_valid_finite s m e Hv) as [[??]|[??]]; lia. Qed.

(** [<=] on valid numbers is the order of their exact values. *)
Lemma float_le_scaled x y :
  float_valid x = true → float_valid y = true →
  float_is_number x = true → float_is_number y = true →
  float_le x y = (float_scaled x <=? float_scaled y).
Proof.
  destruct x as [sx|sx| |sx mx ex], y as [sy|sy| |sy my ey]; try done;
    intros Hx Hy _ _.
  - pose proof (scaled_pos my ey (float_valid_exponent _ _ _ Hy)).
    unfold float_le, SFleb, SFcompare, float_scaled. symmetry.
    destruct sy; [apply Z.leb_gt|apply Z.leb_le]; lia.
  - pose proof (scaled_pos mx ex (float_valid_exponent _ _ _ Hx)).
    unfold float_le, SFleb, SFcompare, float_scaled. symmetry.
    destruct sx; [apply Z.leb_le|apply Z.leb_gt]; lia.
  - pose proof (scaled_pos mx ex (float_valid_exponent _ _ _ Hx)) as Px.
    pose proof (scaled_pos my ey (float_valid_exponent _ _ _ Hy)) as Py.
    unfold float_le, SFleb, SFcompare, float_scaled.
    change (Pos.compare_cont Eq mx my) with (Pos.compare mx my).
    symmetry.
    destruct sx, sy.
    + destruct (Z.compare_spec ex ey) as [->|Hlt|Hgt].
      * pose proof (pow2_pos (ey + 1074)
                      ltac:(pose proof (float_valid_exponent _ _ _ Hy); lia)).
        destruct (Pos.compare_spec mx my) as [->|Hm|Hm]; simpl CompOpp.
        -- apply Z.leb_le. lia.
        -- apply Z.leb_gt. nia.
        -- apply Z.leb_le. nia.
      * pose proof (scaled_order _ _ _ _ _ _ Hx Hy Hlt).
        apply Z.leb_gt. lia.
      * pose proof (scaled_order _ _ _ _ _ _ Hy Hx ltac:(lia)).
        apply Z.leb_le. lia.
    + apply Z.leb_le. lia.
    + apply Z.leb_gt. lia.
    + destruct (Z.compare_spec ex ey) as [->|Hlt|Hgt].
      * pose proof (pow2_pos (ey + 1074)
                      ltac:(pose proof (float_valid_exponent _ _ _ Hy); lia)).
        destruct (Pos.compare_spec mx my) as [->|Hm|Hm].
        -- apply Z.leb_le. lia.
        -- apply Z.leb_le. nia.
        -- apply Z.leb_gt. nia.
      * pose proof (scaled_order _ _ _ _ _ _ Hx Hy Hlt).
        apply Z.leb_le. lia.
      * pose proof (scaled_order _ _ _ _ _ _ Hy Hx ltac:(lia)).
        apply Z.leb_gt. lia.
Qed.

Lemma powerRZ_2_nonneg z : 0 ≤ z → powerRZ 2 z = IZR (2 ^ z).
Proof.
  intros Hz. destruct z as [|p|p]; [simpl; lra| |lia].
  unfold powerRZ. rewrite pow_IZR. f_equal. by rewrite positive_nat_Z.
Qed.

Lemma float_to_R_scaled x :
  float_valid x = true →
  float_to_R x = (IZR (float_scaled x) * powerRZ 2 (-1074))%R.
Proof.
  destruct x as [s|s| |s m e]; intros Hv; unfold float_to_R, float_scaled;
    try lra.
  pose proof (float_valid_exponent s m e Hv) as He.
  replace e with ((e + 1074) + (-1074)) at 1 by lia.
  rewrite powerRZ_add by lra. rewrite powerRZ_2_nonneg by lia.
  destruct s; rewrite !mult_IZR; ring.
Qed.

Lemma float_le_spec x y :
  float_valid x = true → float_valid y = true →
  float_is_number x = true → float_is_number y = true →
  float_le x y = true ↔ (float_to_R x <= float_to_R y)%R.
Proof.
  intros Hx Hy Nx Ny.
  rewrite float_le_scaled, Z.leb_le, !float_to_R_scaled by done.
  assert (0 < powerRZ 2 (-1074))%R as HW by (apply powerRZ_lt; lra).
  split; intros H.
  - apply Rmult_le_compat_r; [lra|]. by apply IZR_le.
  - apply le_IZR. by apply Rmult_le_reg_r with (powerRZ 2 (-1074)).
Qed.

Lemma float_to_R_integer x c :
  float_valid x = true → float_scaled x = c * 2 ^ 1074 →
  float_to_R x = IZR c.
Proof.
  intros Hv Hc. rewrite float_to_R_scaled, Hc, mult_IZR by done.
  rewrite <- powerRZ_2_nonneg by lia.
  rewrite Rmult_assoc, <- powerRZ_add by lra.
  change (1074 + -1074) with 0. simpl. lra.
Qed.

Lemma float_le_number a x b :
  float_is_number a = true → float_is_number b = true →
  float_le a x = true → float_le x b = true → float_is_number x = true.
Proof.
  destruct a as [| | |sa ma ea], b as [| | |sb mb eb], x as [|[]| |];
    try done.
Qed.

Lemma between_spec (a b : Z) x :
  float_valid x = true →
  float_scaled (float_of_Z a) = a * 2 ^ 1074 →
  float_scaled (float_of_Z b) = b * 2 ^ 1074 →
  float_valid (float_of_Z a) = true → float_valid (float_of_Z b) = true →
  float_is_number (float_of_Z a) = true →
  float_is_number (float_of_Z b) = true →
  float_le (float_of_Z a) x = true ∧ float_le x (float_of_Z b) = true
  ↔ float_is_number x = true ∧ (IZR a <= float_to_R x <= IZR b)%R.
Proof.
  intros Hx Ha Hb Va Vb Na Nb.
  rewrite <- (float_to_R_integer _ a Va Ha), <- (float_to_R_integer _ b Vb Hb).
  split.
  - intros [H1 H2].
    pose proof (float_le_number _ _ _ Na Nb H1 H2) as Nx.
    split; [done|]. split; by apply float_le_spec.
  - intros (Nx & H1 & H2). split; by apply float_le_spec.
Qed.

Lemma in_range_values lat lon :
  float_valid lat = true → float_valid lon = true →
  in_range lat lon = true →
  (-90 <= float_to_R lat <= 90)%R ∧ (-180 <= float_to_R lon <= 180)%R.
Proof.
  intros Hlat Hlon. unfold in_range. rewrite andb_true_iff, !andb_true_iff.
  rewrite (between_spec (-90) 90 lat Hlat), (between_spec (-180) 180 lon Hlon);
    try (vm_compute; reflexivity).
  tauto.
Qed.

(** X7. The range test of the orchestrator, made on floats, accepts a row
    exactly when both values are numbers (not NaN, not infinite) whose
    exact values lie in [-90, 90] and [-180, 180]: the projection is only
    applied to such rows. *)
Theorem in_range_spec lat lon :
  float_valid lat = true → float_valid lon = true →
  in_range lat lon = true
  ↔ float_is_number lat = true ∧ float_is_number lon = true
    ∧ (-90 <= float_to_R lat <= 90)%R ∧ (-180 <= float_to_R lon <= 180)%R.
Proof.
  intros Hlat Hlon. unfold in_range. rewrite andb_true_iff, !andb_true_iff.
  rewrite (between_spec (-90) 90 lat Hlat), (between_spec (-180) 180 lon Hlon);
    try (vm_compute; reflexivity).
  tauto.
Qed.

Lemma in_range_spec_witness :
  in_range (float_literal false 899 1) (float_of_Z (-180)) = true
  ↔ float_is_number (float_literal false 899 1) = true
    ∧ float_is_number (float_of_Z (-180)) = true
    ∧ (-90 <= float_to_R (float_literal false 899 1) <= 90)%R
    ∧ (-180 <= float_to_R (float_of_Z (-180)) <= 180)%R.
Proof. apply in_range_spec; reflexivity. Defined.

End FloatOrder.

(** ** How far rounding moves a value *)

Section Round4Accuracy.
Local Open Scope Z_scope.

(** The float nearest to a four-place decimal [k / 10^4] below [2^39] is
    [M / 2^t] with [t >= 14] and [M] within a half of [k * 2^t / 10^4]. *)
Lemma nearest_float_error s k :
  0 < k ≤ 2 ^ 39 * 10000 →
  ∃ m e t,
    nearest_float s k 10000 = S754_finite s m e
    ∧ 14 ≤ t ∧ 0 ≤ e + t
    ∧ -10000 ≤ 2 * (Z.pos m * 2 ^ (e + t) * 10000 - k * 2 ^ t) ≤ 10000.
Proof.
  intros [Hk0 Hk].
  destruct (Z.eq_dec k (2 ^ 39 * 10000)) as [->|Hne].
  { exists 4503599627370496%positive, (-13), 14.
    split; [vm_compute; reflexivity|]. by vm_compute. }
  assert (k < 2 ^ 39 * 10000) as Hlt by lia. clear Hk Hne.
  unfold nearest_float.
  destruct (Z.eqb_spec k 0) as [|_]; [lia|].
  set (lq := floor_log2_ratio k 10000).
  assert (-14 ≤ lq ≤ 52) as Hlq.
  { unfold lq, floor_log2_ratio. change (Z.log2 10000) with 13.
    pose proof (Z.log2_nonneg k).
    assert (Z.log2 k < 53).
    { apply Z.log2_lt_pow2; lia. }
    repeat case_match; lia. }
  pose proof (floor_log2_ratio_spec k 10000 52 Hk0 ltac:(lia) ltac:(lia)
                ltac:(fold lq; lia)) as Hspec.
  fold lq in Hspec.
  rewrite Z.max_l by lia.
  set (t := 52 - lq) in *.
  replace (lq - 52) with (- t) by lia.
  replace (- - t) with t by lia.
  pose proof (pow2_pos t ltac:(lia)) as HD.
  assert (13 < t) as Ht.
  { apply pow2_gt_inv; [lia..|]. change (2 ^ 13) with 8192.
    change (2 ^ 52) with 4503599627370496 in Hspec.
    change (2 ^ 39) with 549755813888 in Hlt. nia. }
  destruct (Z.ltb_spec (- t) 0) as [_|]; [|lia].
  pose proof (rne_div_error (k * 2 ^ t) 10000 ltac:(lia)) as Herr.
  set (m0 := rne_div (k * 2 ^ t) 10000) in *.
  change (2 ^ 52) with 4503599627370496 in *.
  change (2 ^ (52 + 1)) with 9007199254740992 in *.
  change (2 ^ 53) with 9007199254740992 in *.
  assert (4503599627370496 ≤ m0 ≤ 9007199254740992) as Hm0 by lia.
  destruct (Z.eqb_spec m0 9007199254740992) as [Hc|Hc].
  - destruct (Z.eqb_spec 4503599627370496 0) as [|_]; [lia|].
    destruct (Z.ltb_spec 971 (- t + 1)) as [|_]; [lia|].
    eexists _, _, t. split; [reflexivity|].
    replace (- t + 1 + t) with 1 by lia.
    change (Z.pos (Z.to_pos 4503599627370496) * 2 ^ 1)
      with 9007199254740992.
    rewrite <- Hc. lia.
  - destruct (Z.eqb_spec m0 0) as [|_]; [lia|].
    destruct (Z.ltb_spec 971 (- t)) as [|_]; [lia|].
    eexists _, _, t. split; [reflexivity|].
    replace (- t + t) with 0 by lia. change (2 ^ 0) with 1.
    rewrite Z2Pos.id by lia. lia.
Qed.

Lemma value_ratio m e t :
  0 ≤ t → 0 ≤ e + t →
  (IZR (Z.pos m) * powerRZ 2 e
   = IZR (Z.pos m * 2 ^ (e + t)) / IZR (2 ^ t))%R.
Proof.
  intros Ht Het.
  assert (powerRZ 2 e = powerRZ 2 (e + t) * / powerRZ 2 t)%R as ->.
  { rewrite <- powerRZ_neg', <- powerRZ_add by lra. f_equal. lia. }
  rewrite !powerRZ_2_nonneg by lia. rewrite mult_IZR. unfold Rdiv. ring.
Qed.

Lemma two_step_error (M T k m D : R) :
  (16384 <= T → 0 < D →
   -10000 <= 2 * (M * 10000 - k * T) <= 10000 →
   - D <= 2 * (k * D - 10000 * m) <= D →
   -1e-4 <= M / T - m / D <= 1e-4)%R.
Proof.
  intros HT HD H1 H2.
  set (x := (M / T)%R). set (y := (m / D)%R). set (z := (k / 10000)%R).
  assert (x * T = M)%R as Hx by (unfold x; field; lra).
  assert (y * D = m)%R as Hy by (unfold y; field; lra).
  assert (z * 10000 = k)%R as Hz by (unfold z; field).
  rewrite <- Hx, <- Hz in H1. rewrite <- Hy, <- Hz in H2.
  assert (-1 <= 2 * T * (x - z) <= 1)%R as B1 by lra.
  assert (- D <= 20000 * D * (z - y) <= D)%R as B2 by lra.
  assert (- / 32768 <= x - z <= / 32768)%R as C1 by (split; nra).
  assert (-1 <= 20000 * (z - y) <= 1)%R as C2 by (split; nra).
  lra.
Qed.

Lemma signed_error (s : bool) (a b : R) :
  (-1e-4 <= a - b <= 1e-4 →
   Rabs ((if s then -1 else 1) * a - (if s then -1 else 1) * b) <= 1e-4)%R.
Proof. intros H. apply Rabs_le. destruct s; lra. Qed.

(** X8. [round(x, 4)] moves a binary64 value by less than [1e-4]: the
    exact value of the rounded float is within [1e-4] of the exact value
    of [x], so the coordinate a cache key stands for is within a
    ten-thousandth of a degree of every coordinate that has this key. *)
Theorem round4_accuracy x :
  float_valid x = true →
  (Rabs (float_to_R (round4 x) - float_to_R x) <= 1e-4)%R.
Proof.
  intros Hv.
  assert (∀ y : float,
            (Rabs (float_to_R y - float_to_R y) <= 1e-4)%R) as Hsame.
  { intros y. replace (float_to_R y - float_to_R y)%R with 0%R by lra.
    rewrite Rabs_R0. lra. }
  destruct x as [s|s| |s m e]; try apply Hsame.
  assert (Z.pos m < 2 ^ 53 ∧ e ≤ -14
          ∨ 2 ^ 52 ≤ Z.pos m < 2 ^ 53 ∧ -13 ≤ e ≤ 971) as [[Hm He]|[Hm He]].
  { destruct (float_valid_finite s m e Hv) as [[??]|[??]]; [|left; lia].
    destruct (Z.le_gt_cases e (-14)); [left|right]; lia. }
  2: { rewrite round4_large by done. apply Hsame. }
  pose proof (pow2_pos (- e) ltac:(lia)) as HD.
  pose proof (rne_div_error (Z.pos m * 10000) (2 ^ (- e)) HD) as Herr.
  assert (decimal4 m e = rne_div (Z.pos m * 10000) (2 ^ (- e))) as Hk.
  { unfold decimal4. destruct (Z.leb_spec 0 e); [lia|done]. }
  rewrite <- Hk in Herr.
  pose proof (decimal4_small m e Hm He) as Hk1.
  pose proof (decimal4_nonneg m e) as Hk0.
  set (k := decimal4 m e) in *.
  assert (IZR (Z.pos m) * powerRZ 2 e
          = IZR (Z.pos m) / IZR (2 ^ (- e)))%R as Hval.
  { rewrite (value_ratio m e (- e)) by lia.
    replace (e + - e) with 0 by lia. change (2 ^ 0) with 1.
    by rewrite Z.mul_1_r. }
  assert (- IZR (2 ^ (- e))
          <= 2 * (IZR k * IZR (2 ^ (- e)) - 10000 * IZR (Z.pos m))
          <= IZR (2 ^ (- e)))%R as Herr'.
  { destruct Herr as [E1 E2]. apply IZR_le in E1, E2.
    rewrite ?opp_IZR, ?mult_IZR, ?minus_IZR, ?mult_IZR in E1.
    rewrite ?opp_IZR, ?mult_IZR, ?minus_IZR, ?mult_IZR in E2. lra. }
  assert (0 < IZR (2 ^ (- e)))%R as HD' by (by apply IZR_lt).
  unfold float_to_R at 2. rewrite !Rmult_assoc, Hval.
  destruct (Z.eq_dec k 0) as [Hz|Hz].
  - assert (round4 (S754_finite s m e) = S754_zero s) as ->.
    { unfold round4. fold k. rewrite Hz. reflexivity. }
    unfold float_to_R. rewrite Hz in Herr'.
    replace 0%R with ((if s then -1 else 1) * (0 / 16384))%R
      by (destruct s; lra).
    apply signed_error.
    apply (two_step_error 0 16384 0); lra.
  - destruct (nearest_float_error s k ltac:(lia))
      as (m' & e' & t & Hr & Ht & Het & Hn).
    assert (round4 (S754_finite s m e) = S754_finite s m' e') as ->
      by exact Hr.
    unfold float_to_R. rewrite !Rmult_assoc.
    rewrite (value_ratio m' e' t) by lia.
    apply signed_error.
    apply (two_step_error _ _ (IZR k)); [|exact HD'| |exact Herr'].
    + apply IZR_le. change 16384 with (2 ^ 14).
      apply Z.pow_le_mono_r; lia.
    + destruct Hn as [E1 E2]. apply IZR_le in E1, E2.
      rewrite ?opp_IZR, ?mult_IZR, ?minus_IZR, ?mult_IZR in E1.
    rewrite ?opp_IZR, ?mult_IZR, ?minus_IZR, ?mult_IZR in E2.
      rewrite mult_IZR. lra.
Qed.

Lemma round4_accuracy_witness :
  (Rabs (float_to_R (round4 (float_literal false 4071277 5))
         - float_to_R (float_literal false 4071277 5)) <= 1e-4)%R.
Proof. apply round4_accuracy. reflexivity. Defined.

End Round4Accuracy.

(** ** What a batch leaves in the cache and on disk *)

Section BatchExtras.
Variable env : environment.

(** X9. After [batch_geocode] the cache has exactly the keys it had before
    and the keys of the coordinates given: every coordinate of the batch
    has an entry, and no other key is added. *)
Theorem batch_geocode_domain coordinates w :
  dom (cache (batch_geocode env coordinates w).2)
  = dom (cache w) ∪ list_to_set (key_of <$> coordinates).
Proof.
  apply set_eq. intros k.
  rewrite elem_of_union, !elem_of_dom, elem_of_list_to_set, list_elem_of_fmap.
  split.
  - intros [v Hv].
    apply batch_origin in Hv as [Hv|(_ & p & hist & Hp & Hk & _)].
    + left. by exists v.
    + right. by exists p.
  - intros [[v Hv]|(p & -> & Hp)].
    + exists v. by apply batch_preserves.
    + by apply batch_covers.
Qed.

(** X10. When a coordinate of the batch is not cached, [batch_geocode] ends
    by saving: if the cache file can be written it holds the whole cache
    the batch leaves, the entries found and the new ones, and otherwise it
    stays as it was.  The save happens once, after the last call to the
    service. *)
Theorem batch_geocode_persists coordinates w p :
  p ∈ coordinates → cache w !! cache_key p.1 p.2 = None →
  let w' := (batch_geocode env coordinates w).2 in
  cache_file w'
  = (if cache_writable env then Holds (cache w') else cache_file w)
  ∧ ∃ calls,
      trace w'
      = trace w ++ [EvPrint (MsgGeocoding (length calls))]
        ++ (EvReverse <$> calls)
        ++ [if cache_writable env then EvDumpCache (cache w')
            else EvPrint MsgCacheSaveFailed;
            EvPrint MsgGeocodingCompleted].
Proof.
  intros Hp Hnone w'. subst w'. rewrite batch_geocode_run.
  destruct (uncached (cache w) coordinates) as [|n new] eqn:E.
  { assert ((p.1, p.2, cache_key p.1 p.2) ∈ uncached (cache w) coordinates)
      as Hin by (apply elem_of_uncached; by exists p).
    rewrite E in Hin. by apply elem_of_nil in Hin. }
  cbn [snd]. split.
  - unfold geocoded_world, save_world.
    destruct (cache_writable env); cbn [log cache_file cache trace];
      [done|by rewrite resolved_cache_file].
  - exists (call_of <$> n :: new). rewrite geocoded_trace.
    by rewrite length_fmap, <- list_fmap_compose.
Qed.

End BatchExtras.

Lemma batch_geocode_persists_witness :
  let w' :=
    (batch_geocode (sample_env true []) [point 1 1; point 2 2]
       (initial_world Corrupt)).2 in
  cache_file w' = Holds (cache w').
Proof.
  intros w'.
  destruct (batch_geocode_persists (sample_env true []) [point 1 1; point 2 2]
              (initial_world Corrupt) (point 1 1)) as [H _].
  - by left.
  - reflexivity.
  - exact H.
Defined.

(** ** Whole runs: calls, records, files *)

Section MainExtras.
Variable env : environment.

Lemma failed_calls text f :
  service_calls (trace (log [EvPrint (MsgError text)] (loaded_world env f)))
  = [].
Proof.
  unfold log. cbn [trace]. rewrite service_calls_app, loaded_calls. done.
Qed.

(** The calls of a whole run. *)
Lemma main_calls f :
  service_calls (trace (main env (initial_world f)).2)
  = match csv_read env with
    | CsvRows rows =>
        if negb (input_phase_fails env) && wants_lookup env
        then call_of <$> uncached (loaded_cache f) (unique_coords rows)
        else []
    | _ => []
    end.
Proof.
  rewrite main_run. cbn [snd]. rewrite finished_trace, service_calls_app.
  assert (∀ l : list coord,
            l ++ service_calls
                   [if cache_writable env
                    then EvDumpCache (cache (settled env f))
                    else EvPrint MsgCacheSaveFailed;
                    EvPrint MsgProcessCompleted] = l) as ->.
  { intros l. destruct (cache_writable env); cbn; by rewrite app_nil_r. }
  unfold settled. destruct (input_phase_fails env).
  { by destruct (csv_read env). }
  destruct (csv_read env) as [|e| |rows]; try apply failed_calls.
  rewrite exported_calls. cbn [negb andb].
  destruct (wants_lookup env); [|apply loaded_calls].
  by rewrite batch_calls, loaded_calls.
Qed.

(** X11. Whatever the environment, every call a run makes to the service is
    for the rounded pair of a row of the coordinates file, with lookup
    enabled, and for a key the cache file did not hold; a run without
    lookup, or one that fails before the lookup, makes no call. *)
Theorem main_calls_only_missing f :
  let calls := service_calls (trace (main env (initial_world f)).2) in
  (wants_lookup env = false → calls = [])
  ∧ (input_phase_fails env = true → calls = [])
  ∧ ∀ c, c ∈ calls →
      wants_lookup env = true
      ∧ loaded_cache f !! cache_key c.1 c.2 = None
      ∧ ∃ rows p, csv_read env = CsvRows rows ∧ p ∈ rows ∧ c = round_coord p.
Proof.
  intros calls. subst calls. rewrite main_calls. split_and!.
  - intros ->. rewrite andb_false_r. by destruct (csv_read env).
  - intros ->. by destruct (csv_read env).
  - intros c Hc. destruct (csv_read env) as [|e| |rows];
      try by apply elem_of_nil in Hc.
    destruct (input_phase_fails env); [by apply elem_of_nil in Hc|].
    destruct (wants_lookup env); [|by apply elem_of_nil in Hc].
    cbn [negb andb] in Hc.
    apply list_elem_of_fmap in Hc as (n & -> & Hn).
    apply elem_of_uncached in Hn as (u & Hu & -> & Hnone).
    split; [done|]. split; [exact Hnone|].
    apply set_of_list_elem in Hu as [Hu|Hu]; [by apply elem_of_nil in Hu|].
    apply list_elem_of_fmap in Hu as (p & -> & Hp).
    by exists rows, p.
Qed.

Lemma float_eq_nan x : float_eq x x = true ↔ x ≠ S754_nan.
Proof.
  split; [by intros H ->|apply float_eq_refl].
Qed.

Lemma round4_not_nan x :
  float_valid x = true → x ≠ S754_nan → round4 x ≠ S754_nan.
Proof.
  intros Hv Hx. destruct x as [s|s| |s m e]; try done.
  by destruct (round4_decimal s m e Hv) as [[_ ->]|(m' & e' & -> & _)].
Qed.

(** Pairwise unequal rounded pairs have pairwise different keys. *)
Lemma distinct_keys (l : list coord) :
  (∀ x, length (matching x l) ≤ 1) →
  Forall (λ u, valid_coord u ∧ coord_eq u u = true ∧ round_coord u = u) l →
  NoDup (key_of <$> l).
Proof.
  induction l as [|a l IH]; intros Hd Hl; [constructor|].
  apply Forall_cons in Hl as [(Va & Ea & Ra) Hl].
  rewrite fmap_cons. apply NoDup_cons. split.
  - intros Hin. apply list_elem_of_fmap in Hin as (b & Hk & Hb).
    rewrite Forall_forall in Hl. destruct (Hl b Hb) as (Vb & Eb & Rb).
    assert (coord_eq b a = true) as Hba.
    { destruct Va as [Va1 Va2], Vb as [Vb1 Vb2].
      destruct (cache_key_same_iff b.1 b.2 a.1 a.2 Vb1 Vb2 Va1 Va2)
        as [_ Hsame].
      assert (round_coord (b.1, b.2) = b) as Rb' by (by destruct b).
      assert (round_coord (a.1, a.2) = a) as Ra' by (by destruct a).
      rewrite Rb', Ra' in Hsame. apply Hsame.
      - symmetry. exact Hk.
      - apply (f_equal fst) in Rb. cbn [round_coord fst] in Rb. rewrite Rb.
        unfold coord_eq in Eb. apply andb_true_iff in Eb as [Eb _].
        by apply float_eq_nan.
      - apply (f_equal snd) in Rb. cbn [round_coord snd] in Rb. rewrite Rb.
        unfold coord_eq in Eb. apply andb_true_iff in Eb as [_ Eb].
        by apply float_eq_nan. }
    specialize (Hd a). unfold matching in Hd.
    rewrite filter_cons_True in Hd by exact Ea. cbn [length] in Hd.
    assert (b ∈ filter (λ u, coord_eq u a = true) l) as Hf
      by (by apply list_elem_of_filter).
    destruct (filter _ l); [by apply elem_of_nil in Hf|cbn [length] in Hd; lia].
  - apply IH; [|exact Hl]. intros x. specialize (Hd x).
    etrans; [|exact Hd]. apply matching_sublist. by apply sublist_cons.
Qed.

Lemma unique_coords_rounded rows :
  Forall valid_coord rows → Forall (λ p, coord_eq p p = true) rows →
  Forall (λ u, valid_coord u ∧ coord_eq u u = true ∧ round_coord u = u)
    (unique_coords rows).
Proof.
  intros Hv Hn. rewrite Forall_forall in Hv, Hn. apply Forall_forall.
  intros u Hu.
  apply set_of_list_elem in Hu as [Hu|Hu]; [by apply elem_of_nil in Hu|].
  apply list_elem_of_fmap in Hu as (p & -> & Hp).
  destruct (Hv p Hp) as [V1 V2]. specialize (Hn p Hp).
  unfold coord_eq in Hn. apply andb_true_iff in Hn as [N1 N2].
  apply float_eq_nan in N1, N2.
  split_and!.
  - split; cbn [round_coord fst snd]; by apply round4_valid.
  - unfold coord_eq, round_coord. cbn [fst snd].
    apply andb_true_iff. split; apply float_eq_nan; by apply round4_not_nan.
  - unfold round_coord. cbn [fst snd]. by rewrite !round4_idempotent.
Qed.

(** X12. When the rows are binary64 values and none is a NaN, a run calls
    the service at most once for each cache key: the calls have pairwise
    different keys, so within one run no resolution overwrites the result
    of another. *)
Theorem main_calls_once_per_key f rows :
  csv_read env = CsvRows rows →
  Forall valid_coord rows → Forall (λ p, coord_eq p p = true) rows →
  NoDup (key_of <$> service_calls (trace (main env (initial_world f)).2)).
Proof.
  intros Hcsv Hv Hn. rewrite main_calls, Hcsv.
  destruct (negb (input_phase_fails env) && wants_lookup env); [|constructor].
  pose proof (call_of_uncached (loaded_cache f) (unique_coords rows)) as Hsub.
  apply distinct_keys.
  - intros x. etrans; [by apply matching_sublist|].
    apply (set_of_list_distinct _ [] x). cbn. lia.
  - pose proof (unique_coords_rounded rows Hv Hn) as Hall.
    rewrite Forall_forall in Hall. apply Forall_forall. intros u Hu.
    apply Hall. by apply (elem_of_sublist _ _ u Hu).
Qed.

End MainExtras.

Lemma main_calls_once_per_key_witness :
  let rows := [point 1 1; point 1 1; point 5 5] in
  NoDup (key_of <$> service_calls
           (trace (main (sample_env true rows) (initial_world Absent)).2)).
Proof.
  intros rows.
  apply (main_calls_once_per_key (sample_env true rows) Absent rows).
  - reflexivity.
  - repeat constructor.
  - repeat constructor.
Defined.

(** ** Deduplication by rounded tuple and by key *)

Section Deduplication.
Variable env : environment.





End Deduplication.

Section DeduplicationExamples.


(** The pair of the spec, (1.00001, 2.00001) and (1.00002, 2.00002): one
    call, for (1.0, 2.0). *)
Example spec_pair_resolved_once :
  let coords :=
    [(float_literal false 100001 5, float_literal false 200001 5);
     (float_literal false 100002 5, float_literal false 200002 5)] in
  service_calls
    (trace (batch_geocode (sample_env true []) (unique_coords coords)
              (initial_world Absent)).2)
  = [(float_of_Z 1, float_of_Z 2)].
Proof. vm_compute. reflexivity. Qed.


End DeduplicationExamples.

Section RunExtras.
Variable env : environment.

(** X13. A run that fails to save the coordinates entered stops before the
    cache file is read, and the save at the end of the run then writes the
    empty cache of the fresh process: the cache file, whatever it held,
    holds the empty mapping afterwards.  The run makes no call, writes no
    CSV and prints the one error line. *)
Theorem main_input_failure_erases_cache f :
  input_phase_fails env = true →
  let w' := (main env (initial_world f)).2 in
  cache w' = ∅
  ∧ (cache_writable env = true → cache_file w' = Holds ∅)
  ∧ error_messages (trace w') = ["Failed to save coordinates"]
  ∧ service_calls (trace w') = []
  ∧ written_rows (trace w') = [].
Proof.
  intros Hin w'. subst w'. rewrite main_run. cbn [snd].
  rewrite finished_cache, finished_cache_file, finished_trace.
  unfold settled. rewrite Hin. cbn [log initial_world cache trace app].
  split_and!; [done|by intros ->|by destruct (cache_writable env)..].
Qed.

(** X14. After a run with lookup that saved its cache, a later run on the
    same rows, started from the cache file the first one left, makes no
    call to the service, ends with the same cache and writes the same
    records, addresses included, whether it enables the lookup or not and
    whatever its service would answer. *)
Theorem main_rerun_stable (env1 : environment) f rows :
  csv_read env1 = CsvRows rows → input_phase_fails env1 = false →
  wants_lookup env1 = true → cache_writable env1 = true →
  csv_read env = CsvRows rows → input_phase_fails env = false →
  let w1 := (main env1 (initial_world f)).2 in
  let w2 := (main env (initial_world (cache_file w1))).2 in
  service_calls (trace w2) = []
  ∧ cache w2 = cache w1
  ∧ written_rows (trace w2) = written_rows (trace w1).
Proof.
  intros Hcsv1 Hin1 Hl1 Hw1 Hcsv Hin w1 w2.
  split; [by apply (main_rerun_makes_no_call env env1 f rows)|].
  set (c1 := cache (batch_geocode env1 (unique_coords rows)
                      (loaded_world env1 f)).2).
  assert (cache (conversion_world env1 f rows) = c1) as Hc1.
  { unfold conversion_world. by rewrite Hl1. }
  assert (cache_file w1 = Holds c1) as Hf1.
  { unfold w1. rewrite main_run. cbn [snd].
    rewrite finished_cache_file, Hw1, (settled_rows env1 f rows) by done.
    by rewrite exported_cache, Hc1. }
  assert (cache (conversion_world env (Holds c1) rows) = c1) as Hc2.
  { unfold conversion_world. destruct (wants_lookup env); [|done].
    by rewrite (batch_rerun env1 env (unique_coords rows)
                  (loaded_world env1 f) (loaded_world env (Holds c1)) eq_refl). }
  split.
  - unfold w2. rewrite Hf1. unfold w1.
    rewrite !main_run. cbn [snd]. rewrite !finished_cache.
    rewrite (settled_rows env (Holds c1) rows), (settled_rows env1 f rows)
      by done.
    by rewrite !exported_cache, Hc1, Hc2.
  - unfold w2. rewrite Hf1. unfold w1.
    rewrite (main_rows_written env (Holds c1) rows),
      (main_rows_written env1 f rows) by done.
    by rewrite Hc1, Hc2.
Qed.

End RunExtras.

Lemma main_input_failure_erases_cache_witness :
  let f := Holds {["40.0000,-74.0000" := "New York"]} in
  cache_file (main unsaved_env (initial_world f)).2 = Holds ∅.
Proof.
  intros f.
  destruct (main_input_failure_erases_cache unsaved_env f) as (_ & H & _).
  - reflexivity.
  - apply H. reflexivity.
Defined.

Lemma main_rerun_stable_witness :
  let rows := [point 1 1; point 95 1] in
  let w1 := (main (sample_env true rows) (initial_world Absent)).2 in
  let w2 := (main (sample_env false rows) (initial_world (cache_file w1))).2 in
  service_calls (trace w2) = []
  ∧ cache w2 = cache w1
  ∧ written_rows (trace w2) = written_rows (trace w1).
Proof.
  intros rows.
  apply (main_rerun_stable (sample_env false rows) (sample_env true rows)
           Absent rows); reflexivity.
Defined.

Section RecordExtras.
Variable env : environment.
Local Open Scope R_scope.

Lemma Rsum_bounds (l : list R) a b :
  Forall (λ x, a <= x <= b) l →
  INR (length l) * a <= Rsum l <= INR (length l) * b.
Proof.
  induction 1 as [|x l Hx _ IH].
  - unfold Rsum. cbn. lra.
  - change (Rsum (x :: l)) with (x + Rsum l).
    change (length (x :: l)) with (S (length l)). rewrite S_INR. lra.
Qed.

Lemma mean_bounds (l : list R) a b :
  l ≠ [] → Forall (λ x, a <= x <= b) l →
  a <= Rsum l / INR (length l) <= b.
Proof.
  intros Hne Hl. pose proof (Rsum_bounds l a b Hl) as [Hlo Hhi].
  assert (0 < INR (length l)) as Hn.
  { apply lt_0_INR. destruct l; [done|cbn; lia]. }
  set (n := INR (length l)) in *.
  assert (0 < / n) as Hi by (by apply Rinv_0_lt_compat).
  split.
  - replace a with (n * a * / n) by (field; lra).
    apply Rmult_le_compat_r; lra.
  - replace b with (n * b * / n) by (field; lra).
    apply Rmult_le_compat_r; lra.
Qed.

Lemma create_centre_bounds (data : list enriched_record) a b a' b' :
  data ≠ [] →
  Forall (λ r, a <= float_to_R (rec_lat r) <= b
               ∧ a' <= float_to_R (rec_lon r) <= b') data →
  a <= (map_centre data).1 <= b ∧ a' <= (map_centre data).2 <= b'.
Proof.
  intros Hne Hall. unfold map_centre. cbn [fst snd].
  split.
  - rewrite <- (length_fmap (λ r, float_to_R (rec_lat r)) data).
    apply mean_bounds; [by destruct data|].
    apply Forall_fmap. eapply Forall_impl; [exact Hall|]. by intros r [??].
  - rewrite <- (length_fmap (λ r, float_to_R (rec_lon r)) data).
    apply mean_bounds; [by destruct data|].
    apply Forall_fmap. eapply Forall_impl; [exact Hall|]. by intros r [??].
Qed.

(** X19. The map a run saves is centred inside the valid range: when the
    rows are binary64 values, the centre of every map saved has its
    latitude in [-90, 90] and its longitude in [-180, 180], and the map
    shows exactly the records written to the CSV. *)
Theorem main_map_centre_in_range f rows centre data :
  csv_read env = CsvRows rows → input_phase_fails env = false →
  Forall valid_coord rows →
  EvSaveMap centre data ∈ trace (main env (initial_world f)).2 →
  written_rows (trace (main env (initial_world f)).2) = [data]
  ∧ -90 <= centre.1 <= 90 ∧ -180 <= centre.2 <= 180.
Proof.
  intros Hcsv Hin Hvalid Hev.
  pose proof (main_rows_written env f rows Hcsv Hin) as Hw.
  set (c := cache (conversion_world env f rows)) in *.
  rewrite main_run in Hev. cbn [snd] in Hev.
  rewrite finished_trace, (settled_rows env f rows), exported_trace in Hev
    by done.
  fold c in Hev.
  destruct (conversion_trace env f rows) as (es & Hes & Hq).
  rewrite Hes in Hev.
  assert (omap (row_of c) rows ≠ []
          ∧ centre = map_centre (omap (row_of c) rows)
          ∧ data = omap (row_of c) rows) as (Hne & -> & ->).
  { rewrite !elem_of_app in Hev.
    destruct Hev as [[Hev|[Hev|[Hev|Hev]]]|Hev].
    - rewrite Forall_forall in Hq. by destruct (Hq _ Hev).
    - pose proof (quiet_skip_messages rows) as Hs.
      rewrite Forall_forall in Hs. by destruct (Hs _ Hev).
    - apply elem_of_cons in Hev as [Hev|Hev]; [done|].
      by apply list_elem_of_singleton in Hev.
    - destruct (omap (row_of c) rows) as [|r out] eqn:E.
      + by apply list_elem_of_singleton in Hev.
      + apply elem_of_cons in Hev as [Hev|Hev].
        * by injection Hev as -> ->.
        * apply elem_of_cons in Hev as [Hev|Hev]; [done|].
          by apply list_elem_of_singleton in Hev.
    - destruct (cache_writable env);
        (apply elem_of_cons in Hev as [Hev|Hev]; [done|]);
        by apply list_elem_of_singleton in Hev. }
  split; [exact Hw|].
  destruct (create_centre_bounds (omap (row_of c) rows) (-90) 90 (-180) 180)
    as [H1 H2]; [exact Hne| |by split].
  apply Forall_forall. intros r Hr.
  apply list_elem_of_omap in Hr as (p & Hp & Hrow).
  apply row_of_address in Hrow as (Hrange & E1 & E2 & _).
  rewrite Forall_forall in Hvalid. destruct (Hvalid p Hp) as [V1 V2].
  rewrite E1, E2. by apply in_range_values.
Qed.

End RecordExtras.

Section RecordExamples.
Local Open Scope R_scope.

Lemma main_map_centre_in_range_witness :
  let p := point 40 (-74) in
  let xy := mercator_projection (float_to_R p.1) (float_to_R p.2) in
  let rev := inverse_mercator xy.1 xy.2 in
  let r :=
    EnrichedRecord p.1 p.2 xy.1 xy.2 rev.1 rev.2 "Address lookup disabled" in
  -90 <= (map_centre [r]).1 <= 90 ∧ -180 <= (map_centre [r]).2 <= 180.
Proof.
  intros p xy rev r.
  destruct (main_map_centre_in_range (sample_env false [p]) Absent [p]
              (map_centre [r]) [r]) as [_ H].
  - reflexivity.
  - reflexivity.
  - repeat constructor.
  - rewrite main_run. cbn [snd].
    rewrite finished_trace, (settled_rows (sample_env false [p]) Absent [p]),
      exported_trace by reflexivity.
    apply elem_of_app. left. apply elem_of_app. right.
    apply elem_of_app. right. apply elem_of_app. right.
    apply list_elem_of_here.
  - exact H.
Defined.

End RecordExamples.

(** ** Interactive entry *)

Section EntryFacts.
Variable py : builtins.

Lemma read_entries_in_range lines coordinates out coords :
  Forall (λ p : coord, in_range p.1 p.2 = true) coordinates →
  (read_entries py lines coordinates out).1 = Returned (Some coords) →
  Forall (λ p : coord, in_range p.1 p.2 = true) coords.
Proof.
  revert coordinates out.
  induction lines as [|line rest IH]; intros coordinates out Hacc; [done|].
  cbn [read_entries].
  destruct (String.eqb _ "done"); [by intros [= <-]|].
  destruct (String.eqb _ "exit"); [done|].
  destruct (str_float py <$> split_on "," (str_strip py line))
    as [|[lat|] [|[lon|] [|??]]]; try apply (IH _ _ Hacc).
  destruct (float_le (float_of_Z (-90)) lat && float_le lat (float_of_Z 90))
    eqn:Elat; cbn [negb]; [|apply (IH _ _ Hacc)].
  destruct (float_le (float_of_Z (-180)) lon && float_le lon (float_of_Z 180))
    eqn:Elon; cbn [negb]; [|apply (IH _ _ Hacc)].
  apply IH. apply Forall_app. split; [exact Hacc|].
  apply Forall_singleton. unfold in_range. cbn [fst snd]. by rewrite Elat, Elon.
Qed.

(** X20. Every coordinate [input_coordinates_interactively] returns passed
    the range test the orchestrator applies to the rows: what was typed
    out of range, or as NaN or infinity, is not in the list, whatever
    [float] accepts. *)
Theorem input_coordinates_in_range lines coords :
  (input_coordinates_interactively py lines).1 = Returned (Some coords) →
  Forall (λ p : coord, in_range p.1 p.2 = true) coords
  ∧ Forall (λ p : coord,
              float_is_number p.1 = true ∧ float_is_number p.2 = true) coords.
Proof.
  intros Hrun.
  assert (Forall (λ p : coord, in_range p.1 p.2 = true) coords) as Hall.
  { by apply (read_entries_in_range lines [] [MsgEnterCoordinates; MsgTypeDone]). }
  split; [exact Hall|].
  eapply Forall_impl; [exact Hall|]. intros [lat lon]. cbn [fst snd].
  unfold in_range. rewrite !andb_true_iff. intros [[H1 H2] [H3 H4]].
  split; [by apply (float_le_number (float_of_Z (-90)) lat (float_of_Z 90))
         |by apply (float_le_number (float_of_Z (-180)) lon (float_of_Z 180))].
Qed.

Lemma read_entries_step line rest coordinates out :
  terminator py line = false →
  ∃ out',
    read_entries py (line :: rest) coordinates out
    = read_entries py rest
        (coordinates ++ option_list (parse_entry py line)) out'.
Proof.
  unfold terminator, entry_command, parse_entry. intros Ht.
  apply orb_false_iff in Ht as [Hd He].
  cbn [read_entries]. rewrite Hd, He.
  destruct (str_float py <$> split_on "," (str_strip py line))
    as [|[lat|] [|[lon|] [|??]]];
    try (eexists; cbn [option_list]; by rewrite app_nil_r).
  unfold in_range.
  destruct (float_le (float_of_Z (-90)) lat && float_le lat (float_of_Z 90));
    cbn [negb andb]; [|eexists; cbn [option_list]; by rewrite app_nil_r].
  destruct (float_le (float_of_Z (-180)) lon && float_le lon (float_of_Z 180));
    cbn [negb]; [|eexists; cbn [option_list]; by rewrite app_nil_r].
  by eexists.
Qed.

Lemma read_entries_skip before rest coordinates out :
  Forall (λ l, terminator py l = false) before →
  ∃ out',
    read_entries py (before ++ rest) coordinates out
    = read_entries py rest (coordinates ++ omap (parse_entry py) before) out'.
Proof.
  intros Hb. revert coordinates out.
  induction Hb as [|line before Hl _ IH]; intros coordinates out.
  - exists out. cbn. by rewrite app_nil_r.
  - cbn [app].
    destruct (read_entries_step line (before ++ rest) coordinates out Hl)
      as [out1 ->].
    destruct (IH (coordinates ++ option_list (parse_entry py line)) out1)
      as [out2 ->].
    exists out2. f_equal. rewrite <- app_assoc. f_equal.
    cbn [omap list_omap]. by destruct (parse_entry py line).
Qed.

(** X21. [input_coordinates_interactively] reads up to the first line that
    spells [done] or [exit] and leaves the lines after it unread.  On
    [done] it returns, in order, the pairs of the lines before that parse
    as two floats in range; on [exit] it returns [None] and what was entered
    is dropped; when the input ends before either, [EOFError] escapes. *)
Theorem input_coordinates_until_terminator before :
  Forall (λ l, terminator py l = false) before →
  (∀ t after, entry_command py t = "done" →
     let r := input_coordinates_interactively py (before ++ t :: after) in
     r.1 = Returned (Some (omap (parse_entry py) before))
     ∧ stdin r.2 = after)
  ∧ (∀ t after, entry_command py t = "exit" →
       let r := input_coordinates_interactively py (before ++ t :: after) in
       r.1 = Returned None ∧ stdin r.2 = after)
  ∧ (input_coordinates_interactively py before).1
    = Raised (Exn "EOFError" "EOF when reading a line").
Proof.
  intros Hb. unfold input_coordinates_interactively. split_and!.
  - intros t after Ht. cbv zeta.
    destruct (read_entries_skip before (t :: after) []
                [MsgEnterCoordinates; MsgTypeDone] Hb) as [out ->].
    cbn [read_entries]. fold (entry_command py t). rewrite Ht. by cbn.
  - intros t after Ht. cbv zeta.
    destruct (read_entries_skip before (t :: after) []
                [MsgEnterCoordinates; MsgTypeDone] Hb) as [out ->].
    cbn [read_entries]. fold (entry_command py t). rewrite Ht. by cbn.
  - destruct (read_entries_skip before [] []
                [MsgEnterCoordinates; MsgTypeDone] Hb) as [out Hrun].
    rewrite app_nil_r in Hrun. by rewrite Hrun.
Qed.

End EntryFacts.

Lemma input_coordinates_in_range_witness :
  let lines := ["12.5,-3.25"; "95,10"; " 40,-74 "; "abc"; "Done"; "1,1"] in
  Forall (λ p : coord, in_range p.1 p.2 = true)
    [(float_literal false 125 1, float_literal true 325 2);
     (float_of_Z 40, float_of_Z (-74))].
Proof.
  intros lines.
  apply (input_coordinates_in_range sample_builtins lines). reflexivity.
Defined.

Lemma input_coordinates_until_terminator_witness :
  let r :=
    input_coordinates_interactively sample_builtins
      (["12.5,-3.25"; "95,10"] ++ "EXIT" :: ["1,1"]) in
  r.1 = Returned None ∧ stdin r.2 = ["1,1"].
Proof.
  destruct (input_coordinates_until_terminator sample_builtins
              ["12.5,-3.25"; "95,10"]) as (_ & H & _).
  - repeat constructor.
  - apply (H "EXIT" ["1,1"]). reflexivity.
Defined.
